(** * Round-robin coffee-shop scheduler: a shallow embedding of
      [src/scheduler.py] and the properties of its queues and turns.

    The Python classes [QueueRR] and [Scheduler] become records; a method
    that mutates [self] becomes a function returning the new record.
    Python integers are unbounded: clock, remaining time and quantum are
    [Z]; buffer indices, sizes and the task counter never go below zero
    and are [nat].  Dictionaries are [gmap string _].  An operation that
    can raise in Python returns a [result]; an exception carries the
    state in which it leaves the object the method was mutating, since
    Python keeps what was assigned before the raise.

    The interpreter is 64-bit CPython.  Two things depend on the machine
    and its configuration and are fixed as follows: how long a list can
    be allocated is a parameter [heap] of the constructor of a queue and
    of everything that calls it, and the decimal rendering of an integer
    is taken without the optional limit on the number of digits. *)

From Stdlib Require Import ZArith Ascii String List Lia.
From Stdlib Require Import DecimalString DecimalNat DecimalZ.
From stdpp Require Import base option list gmap strings fin_maps.

Local Open Scope string_scope.
Local Open Scope list_scope.
Local Open Scope Z_scope.
Local Open Scope nat_scope.

(** ** Python-level helpers *)

Inductive exn :=
  | IndexError
  | KeyError
  | ZeroDivisionError
  | OverflowError
  | MemoryError
  | ValueError.

(** Outcome of a call: a value; a Python exception [e], raised with the
    object the call was mutating left in state [s] (the unit value for a
    call that has mutated nothing when it raises); or (only for the
    unbounded [while True] loop of [run]) exhaustion of the fuel that
    bounds the number of loop iterations explored. *)
Inductive result (St A : Type) :=
  | Ok (a : A)
  | Raise (e : exn) (s : St)
  | OutOfFuel.
Arguments Ok {St A} a.
Arguments Raise {St A} e s.
Arguments OutOfFuel {St A}.

Definition result_bind {St A B} (f : A → result St B) (m : result St A)
    : result St B :=
  match m with
  | Ok a => f a
  | Raise e s => Raise e s
  | OutOfFuel => OutOfFuel
  end.

#[global] Instance result_mbind {St} : MBind (result St) := @result_bind St.
#[global] Instance result_mret {St} : MRet (result St) := @Ok St.

(** A call that mutates nothing before it raises, made by a method whose
    own object is in state [s] at that point: an exception of the call
    leaves the method with its object in state [s]. *)
Definition in_state {St A} (s : St) (m : result unit A) : result St A :=
  match m with
  | Ok a => Ok a
  | Raise e _ => Raise e s
  | OutOfFuel => OutOfFuel
  end.

(** The state a call leaves its object in, whether it returns or
    raises. *)
Definition state_left {St A} (m : result St (St * A)) : option St :=
  match m with
  | Ok (s, _) => Some s
  | Raise _ s => Some s
  | OutOfFuel => None
  end.

(** [a % b] on non-negative integers. *)
Definition py_mod (a b : nat) : result unit nat :=
  if b =? 0 then Raise ZeroDivisionError () else Ok (a mod b).

(** [l[i]] for a non-negative index. *)
Definition py_getitem {A} (l : list A) (i : nat) : result unit A :=
  match l !! i with
  | Some x => Ok x
  | None => Raise IndexError ()
  end.

(** [[x] * n].  The count must fit a signed 64-bit index, otherwise
    OverflowError is raised; a count of zero or less gives the empty
    list; otherwise the list is allocated, which raises MemoryError when
    the machine cannot provide [n] slots: [heap n] tells whether it
    can. *)
Definition py_list_repeat {A} (heap : Z → bool) (x : A) (n : Z)
    : result unit (list A) :=
  if ((n <? - 2 ^ 63) || (2 ^ 63 <=? n))%Z then Raise OverflowError ()
  else if (n <=? 0)%Z then Ok []
  else if heap n then Ok (replicate (Z.to_nat n) x)
  else Raise MemoryError ().

(** [str(n)] and [f"{n}"] for integers. *)
Definition py_str_nat (n : nat) : string :=
  NilEmpty.string_of_uint (Nat.to_uint n).

Definition py_str_int (z : Z) : string :=
  NilEmpty.string_of_int (Z.to_int z).

Fixpoint zeros (k : nat) : string :=
  match k with
  | O => ""
  | S k => String "0"%char (zeros k)
  end.

(** [f"{n:03d}"] for [n >= 0]: decimal digits, padded on the left with
    zeros up to a width of three. *)
Definition py_fmt_03d (n : nat) : string :=
  let s := py_str_nat n in
  zeros (3 - String.length s) +:+ s.

(** [sep.join(parts)]. *)
Fixpoint py_join (sep : string) (parts : list string) : string :=
  match parts with
  | [] => ""
  | [p] => p
  | p :: rest => p +:+ sep +:+ py_join sep rest
  end.

(** ** class Task *)

Record Task := mkTask { task_id : string; remaining : Z }.

(** ** class QueueRR: fixed-capacity circular buffer *)

Module QueueRR.

Record t := mk {
  queue_id : string;
  capacity : nat;
  _buf : list (option Task);
  _head : nat;
  _size : nat;
  _next_task_num : nat
}.

(** [__init__]: [capacity = max(0, int(capacity))], a buffer of
    [capacity] slots (one slot when the capacity is zero).  The
    allocation of the buffer can raise, and then no queue object comes
    into being. *)
Definition init (heap : Z → bool) (queue_id : string) (capacity : Z)
    : result unit t :=
  let capacity := Z.max 0 capacity in
  _buf ← py_list_repeat heap None
           (if (0 <? capacity)%Z then capacity else 1%Z);
  Ok {| queue_id := queue_id;
        capacity := Z.to_nat capacity;
        _buf := _buf;
        _head := 0;
        _size := 0;
        _next_task_num := 1 |}.

(** In [enqueue] the only operation that can raise, [%], comes before
    the first assignment, and the index it yields lies within the
    buffer.  In [dequeue] the read of [self._buf[self._head]] comes
    first; once it has succeeded the buffer is not empty, so neither
    the assignment to that slot nor the [%] after it raises.  An
    exception of a method therefore leaves the queue as it was. *)
Definition enqueue (self : t) (task : Task) : result unit (t * bool) :=
  if capacity self <=? _size self then Ok (self, false)
  else
    pos ← py_mod (_head self + _size self) (length (_buf self));
    Ok ({| queue_id := queue_id self;
           capacity := capacity self;
           _buf := <[pos := Some task]> (_buf self);
           _head := _head self;
           _size := _size self + 1;
           _next_task_num := _next_task_num self |}, true).

Definition dequeue (self : t) : result unit (t * option Task) :=
  if _size self =? 0 then Ok (self, None)
  else
    t ← py_getitem (_buf self) (_head self);
    head ← py_mod (_head self + 1) (length (_buf self));
    Ok ({| queue_id := queue_id self;
           capacity := capacity self;
           _buf := <[_head self := None]> (_buf self);
           _head := head;
           _size := _size self - 1;
           _next_task_num := _next_task_num self |}, t).

Definition peek (self : t) : result unit (option Task) :=
  if _size self =? 0 then Ok None
  else py_getitem (_buf self) (_head self).

(** [__len__] *)
Definition len (self : t) : nat := _size self.

(** The loop body of [contents_front_to_back], over the indices
    produced by [range(self._size)]. *)
Fixpoint contents_loop (self : t) (idxs : list nat) (out : list Task)
    : result unit (list Task) :=
  match idxs with
  | [] => Ok out
  | i :: idxs =>
      idx ← py_mod (_head self + i) (length (_buf self));
      t ← py_getitem (_buf self) idx;
      contents_loop self idxs
        (match t with Some t => out ++ [t] | None => out end)
  end.

Definition contents_front_to_back (self : t) : result unit (list Task) :=
  contents_loop self (seq 0 (_size self)) [].

Definition next_task_id (self : t) : string * t :=
  let tid := queue_id self +:+ "-" +:+ py_fmt_03d (_next_task_num self) in
  (tid,
   {| queue_id := queue_id self;
      capacity := capacity self;
      _buf := _buf self;
      _head := _head self;
      _size := _size self;
      _next_task_num := _next_task_num self + 1 |}).

End QueueRR.

(** ** class Scheduler *)

Module Scheduler.

Record t := mk {
  _queues : gmap string QueueRR.t;
  _order : list string;
  _skip_pending : gmap string bool;
  _next_index : nat;
  _time : Z
}.

(** The hard-coded menu, read only. *)
Definition _menu : gmap string Z :=
  list_to_map
    [("americano", 2%Z); ("latte", 3%Z); ("cappuccino", 3%Z);
     ("mocha", 4%Z); ("tea", 1%Z); ("macchiato", 2%Z);
     ("hot_chocolate", 4%Z)].

(** [__init__] *)
Definition init : t :=
  {| _queues := ∅; _order := []; _skip_pending := ∅;
     _next_index := 0; _time := 0 |}.

Definition set_queues (self : t) (qs : gmap string QueueRR.t) : t :=
  {| _queues := qs; _order := _order self;
     _skip_pending := _skip_pending self;
     _next_index := _next_index self; _time := _time self |}.

Definition set_skip_pending (self : t) (sk : gmap string bool) : t :=
  {| _queues := _queues self; _order := _order self;
     _skip_pending := sk;
     _next_index := _next_index self; _time := _time self |}.

Definition set_next_index (self : t) (i : nat) : t :=
  {| _queues := _queues self; _order := _order self;
     _skip_pending := _skip_pending self;
     _next_index := i; _time := _time self |}.

Definition set_time (self : t) (z : Z) : t :=
  {| _queues := _queues self; _order := _order self;
     _skip_pending := _skip_pending self;
     _next_index := _next_index self; _time := z |}.

Definition opt_part (key : string) (v : option string) : list string :=
  match v with
  | Some v => [key +:+ "=" +:+ v]
  | None => []
  end.

Definition _log_time_event (self : t) (event : string)
    (queue task : option string) (remaining : option Z)
    (reason : option string) : string :=
  let parts :=
    ["time=" +:+ py_str_int (_time self); "event=" +:+ event] in
  let parts := parts ++ opt_part "queue" queue in
  let parts := parts ++ opt_part "task" task in
  let parts := parts ++ opt_part "remaining" (py_str_int <$> remaining) in
  let parts := parts ++ opt_part "reason" reason in
  py_join " " parts.

(** [create_queue]: the queue stored under an id that exists is popped
    first, then the new queue is constructed, and only then are the
    dictionary, the order and the flag updated; when the constructor
    raises, the engine is left without the popped queue. *)
Definition create_queue (heap : Z → bool) (self : t) (queue_id : string)
    (capacity : Z) : result t (t * list string) :=
  let self :=
    if decide (is_Some (_queues self !! queue_id))
    then set_queues self (delete queue_id (_queues self))
    else self in
  q ← in_state self (QueueRR.init heap queue_id capacity);
  let self :=
    {| _queues := <[queue_id := q]> (_queues self);
       _order := _order self ++ [queue_id];
       _skip_pending := <[queue_id := false]> (_skip_pending self);
       _next_index := _next_index self;
       _time := _time self |} in
  Ok (self, [_log_time_event self "create" (Some queue_id) None None None]).

(** [enqueue] returns the new state, the log, and the lines printed on
    standard output. *)
Definition enqueue (self : t) (queue_id item_name : string)
    : result t (t * list string * list string) :=
  match _queues self !! queue_id with
  | None =>
      Ok (self,
          [_log_time_event self "error" (Some queue_id) None None
             (Some "unknown_queue")], [])
  | Some q =>
      let '(task_id, q) := QueueRR.next_task_id q in
      let self := set_queues self (<[queue_id := q]> (_queues self)) in
      match _menu !! item_name with
      | None =>
          Ok (self,
              [_log_time_event self "reject" (Some queue_id) (Some task_id)
                 None (Some "unknown_item")],
              ["Sorry, we don't serve that."])
      | Some burst =>
          if QueueRR.capacity q <=? QueueRR.len q then
            Ok (self,
                [_log_time_event self "reject" (Some queue_id)
                   (Some task_id) None (Some "full")],
                ["Sorry, we're at capacity."])
          else
            let task := {| task_id := task_id; remaining := burst |} in
            '(q, ok) ← in_state self (QueueRR.enqueue q task);
            let self := set_queues self (<[queue_id := q]> (_queues self)) in
            if negb ok then
              Ok (self,
                  [_log_time_event self "reject" (Some queue_id)
                     (Some task_id) None (Some "full")],
                  ["Sorry, we're at capacity."])
            else
              Ok (self,
                  [_log_time_event self "enqueue" (Some queue_id)
                     (Some task_id) (Some burst) None], [])
      end
  end.

Definition mark_skip (self : t) (queue_id : string) : t * list string :=
  match _queues self !! queue_id with
  | None =>
      (self,
       [_log_time_event self "error" (Some queue_id) None None
          (Some "unknown_queue")])
  | Some _ =>
      let self :=
        set_skip_pending self (<[queue_id := true]> (_skip_pending self)) in
      (self, [_log_time_event self "skip" (Some queue_id) None None None])
  end.

Definition next_queue (self : t) : t * option string :=
  match _order self with
  | [] => (self, None)
  | _ =>
      let self :=
        if length (_order self) <=? _next_index self
        then set_next_index self 0 else self in
      (self, _order self !! _next_index self)
  end.

(** [self._skip_pending.get(queue_id, False)] *)
Definition skip_get (self : t) (queue_id : string) : bool :=
  default false (_skip_pending self !! queue_id).

Definition _perform_single_turn (self : t) (queue_id : string)
    (quantum : Z) : result t (t * list string) :=
  let logs := [_log_time_event self "run" (Some queue_id) None None None] in
  if skip_get self queue_id then
    let self :=
      set_skip_pending self (<[queue_id := false]> (_skip_pending self)) in
    Ok (self,
        logs ++ [_log_time_event self "skip" (Some queue_id) None None None])
  else
    match _queues self !! queue_id with
    | None => Ok (self, logs)
    | Some q =>
        if QueueRR.len q =? 0 then Ok (self, logs)
        else
          '(q, task) ← in_state self (QueueRR.dequeue q);
          let self := set_queues self (<[queue_id := q]> (_queues self)) in
          match task with
          | None => Ok (self, logs)
          | Some task =>
              let work_time := Z.min (remaining task) quantum in
              let self := set_time self (_time self + work_time) in
              let task :=
                {| task_id := task_id task;
                   remaining := remaining task - work_time |} in
              if (remaining task <=? 0)%Z then
                Ok (self,
                    logs ++
                    [_log_time_event self "work" (Some queue_id)
                       (Some (task_id task)) (Some 0%Z) None;
                     _log_time_event self "finish" (Some queue_id)
                       (Some (task_id task)) None None])
              else
                '(q, _) ← in_state self (QueueRR.enqueue q task);
                let self :=
                  set_queues self (<[queue_id := q]> (_queues self)) in
                Ok (self,
                    logs ++
                    [_log_time_event self "work" (Some queue_id)
                       (Some (task_id task)) (Some (remaining task)) None])
          end
    end.

(** The local helper [advance_index] of [run]. *)
Definition advance_index (self : t) : t :=
  match _order self with
  | [] => self
  | _ => set_next_index self ((_next_index self + 1) mod length (_order self))
  end.

(** [all(len(self._queues[qid]) == 0 for qid in self._order)]: stops at
    the first non-empty queue, raises [KeyError] on a missing id. *)
Fixpoint all_empty (queues : gmap string QueueRR.t) (order : list string)
    : result unit bool :=
  match order with
  | [] => Ok true
  | qid :: order =>
      match queues !! qid with
      | None => Raise KeyError ()
      | Some q => if QueueRR.len q =? 0 then all_empty queues order
                  else Ok false
      end
  end.

(** [any(self._skip_pending.get(qid, False) for qid in self._order)] *)
Definition any_skip (self : t) : bool :=
  existsb (skip_get self) (_order self).

(** One iteration of either loop of [run] on a non-empty order: the
    turn on the queue under the cursor, then [advance_index]. *)
Definition turn_and_advance (self : t) (quantum : Z)
    : result t (t * list string) :=
  current_qid ← in_state self (py_getitem (_order self) (_next_index self));
  '(self, l) ← _perform_single_turn self current_qid quantum;
  Ok (advance_index self, l).

(** The [while True] loop of [run]; [fuel] bounds the number of times
    the loop test is evaluated. *)
Fixpoint run_until_quiet (fuel : nat) (self : t) (quantum : Z)
    (logs : list string) : result t (t * list string) :=
  match fuel with
  | O => OutOfFuel
  | S fuel =>
      all_empty ← in_state self (all_empty (_queues self) (_order self));
      let any_skip := any_skip self in
      if all_empty && negb any_skip then Ok (self, logs)
      else
        '(self, l) ← turn_and_advance self quantum;
        run_until_quiet fuel self quantum (logs ++ l)
  end.

(** The [for _ in range(turns_to_do)] loop of [run]. *)
Fixpoint run_steps (turns : nat) (self : t) (quantum : Z)
    (logs : list string) : result t (t * list string) :=
  match turns with
  | O => Ok (self, logs)
  | S turns =>
      match _order self with
      | [] =>
          run_steps turns self quantum
            (logs ++ [_log_time_event self "run" None None None None])
      | _ =>
          '(self, l) ← turn_and_advance self quantum;
          run_steps turns self quantum (logs ++ l)
      end
  end.

Definition steps_invalid (self : t) (steps : Z) : bool :=
  (steps <? 1)%Z || (Z.max 1 (Z.of_nat (length (_order self))) <? steps)%Z.

Definition run (fuel : nat) (self : t) (quantum : Z) (steps : option Z)
    : result t (t * list string) :=
  match steps with
  | Some steps =>
      if steps_invalid self steps then
        Ok (self,
            [_log_time_event self "error" None None None
               (Some "invalid_steps")])
      else run_steps (Z.to_nat steps) self quantum []
  | None =>
      match _order self with
      | [] => Ok (self, [])
      | _ => run_until_quiet fuel self quantum []
      end
  end.

End Scheduler.

(** ** Specification-side definitions *)

(** [Repr q l]: the ring buffer [q] holds exactly the tasks [l], front
    first, in the slots [_head], [_head + 1], ... taken modulo the buffer
    length. *)
Definition Repr (q : QueueRR.t) (l : list Task) : Prop :=
  length (QueueRR._buf q) = Nat.max (QueueRR.capacity q) 1 ∧
  QueueRR._head q < length (QueueRR._buf q) ∧
  QueueRR._size q = length l ∧
  length l ≤ QueueRR.capacity q ∧
  ∀ i t, l !! i = Some t →
    QueueRR._buf q !! ((QueueRR._head q + i) mod length (QueueRR._buf q))
    = Some (Some t).

(** The tasks of a queue front to back, as a total function. *)
Definition contents (q : QueueRR.t) : list Task :=
  match QueueRR.contents_front_to_back q with
  | Ok l => l
  | _ => []
  end.

Definition positive_task (t : Task) : Prop := (0 < remaining t)%Z.

(** The invariant of the states the engine can reach: every queue is
    listed in the order and is a ring buffer of tasks with time left,
    stored under its own id; every flag belongs to a listed id; the
    cursor is in range. *)
Record wf_state (s : Scheduler.t) : Prop := mk_wf {
  wf_dom : ∀ qid, is_Some (Scheduler._queues s !! qid) →
    qid ∈ Scheduler._order s;
  wf_queues : ∀ qid q, Scheduler._queues s !! qid = Some q →
    QueueRR.queue_id q = qid ∧ ∃ l, Repr q l ∧ Forall positive_task l;
  wf_skip : ∀ qid, is_Some (Scheduler._skip_pending s !! qid) →
    qid ∈ Scheduler._order s;
  wf_index :
    Scheduler._next_index s < Nat.max 1 (length (Scheduler._order s))
}.

(** Every entry of the order has a queue.  A state the engine reaches
    need not have this: [create_queue] on an id that exists leaves the
    entry of the id without queue when the constructor raises. *)
Definition queues_present (s : Scheduler.t) : Prop :=
  ∀ qid, qid ∈ Scheduler._order s → is_Some (Scheduler._queues s !! qid).

(** The buffer of a queue of the requested capacity can be allocated:
    its [max(capacity, 1)] slots fit a machine index and the machine
    has room for them. *)
Definition allocatable (heap : Z → bool) (capacity : Z) : bool :=
  (Z.max 1 capacity <? 2 ^ 63)%Z && heap (Z.max 1 capacity).

(** The commands the command-line driver dispatches to the engine. *)
Inductive op :=
  | CREATE (queue_id : string) (capacity : Z)
  | ENQ (queue_id item_name : string)
  | SKIP (queue_id : string)
  | RUN (quantum : Z) (steps : option Z).

Definition exec_op (heap : Z → bool) (fuel : nat) (s : Scheduler.t) (o : op)
    : result Scheduler.t (Scheduler.t * list string) :=
  match o with
  | CREATE qid cap => Scheduler.create_queue heap s qid cap
  | ENQ qid item =>
      '(s, logs, _) ← Scheduler.enqueue s qid item; Ok (s, logs)
  | SKIP qid => Ok (Scheduler.mark_skip s qid)
  | RUN quantum steps => Scheduler.run fuel s quantum steps
  end.

(** A sequence of commands issued by a client that, like the
    command-line driver, catches the exception of a command and goes on
    with the engine as the exception left it; the log of a command that
    raised is lost.  The result is the final state with the logs of the
    commands that returned, or [OutOfFuel] when a run did not finish
    within the fuel. *)
Fixpoint exec_ops (heap : Z → bool) (fuel : nat) (s : Scheduler.t)
    (ops : list op) : result Scheduler.t (Scheduler.t * list string) :=
  match ops with
  | [] => Ok (s, [])
  | o :: ops =>
      match exec_op heap fuel s o with
      | Ok (s, l1) =>
          '(s, l2) ← exec_ops heap fuel s ops;
          Ok (s, l1 ++ l2)
      | Raise _ s => exec_ops heap fuel s ops
      | OutOfFuel => OutOfFuel
      end
  end.

(** Sum of the remaining time of the tasks waiting in a queue. *)
Definition task_sum (l : list Task) : Z :=
  foldr (λ t acc, remaining t + acc)%Z 0%Z l.

Definition queue_load (q : QueueRR.t) : Z := task_sum (contents q).

Definition map_sum {A} (f : A → Z) (m : gmap string A) : Z :=
  map_fold (λ _ x acc, f x + acc)%Z 0%Z m.

Definition total_remaining (s : Scheduler.t) : Z :=
  map_sum queue_load (Scheduler._queues s).

Definition flag_weight (b : bool) : Z := if b then 1%Z else 0%Z.

Definition pending_skips (s : Scheduler.t) : Z :=
  map_sum flag_weight (Scheduler._skip_pending s).

(** The termination measure of run-to-quiescence: total remaining time
    of all queued tasks plus the number of pending skip flags. *)
Definition measure (s : Scheduler.t) : Z :=
  (total_remaining s + pending_skips s)%Z.

(** Quiescence: every queue is empty and no skip flag is pending. *)
Definition quiescent (s : Scheduler.t) : Prop :=
  (∀ qid q, Scheduler._queues s !! qid = Some q → QueueRR.len q = 0) ∧
  (∀ qid, Scheduler._skip_pending s !! qid ≠ Some true).

(** The amount of work a turn on [qid] performs: nothing when the skip
    flag is pending or the queue is empty, otherwise
    [min(task.remaining, quantum)] for the task at the front. *)
Definition turn_work (s : Scheduler.t) (qid : string) (quantum : Z) : Z :=
  if Scheduler.skip_get s qid then 0%Z
  else
    match Scheduler._queues s !! qid with
    | Some q =>
        match QueueRR.peek q with
        | Ok (Some t) => Z.min (remaining t) quantum
        | _ => 0%Z
        end
    | None => 0%Z
    end.

Definition cursor_work (s : Scheduler.t) (quantum : Z) : Z :=
  match Scheduler._order s !! Scheduler._next_index s with
  | Some qid => turn_work s qid quantum
  | None => 0%Z
  end.

(** The worked amounts of the successive turns of the two loops of
    [run], of [run] itself and of a sequence of commands. *)
Fixpoint worked_steps (turns : nat) (s : Scheduler.t) (quantum : Z)
    : list Z :=
  match turns with
  | O => []
  | S turns =>
      match Scheduler._order s with
      | [] => worked_steps turns s quantum
      | _ =>
          match Scheduler.turn_and_advance s quantum with
          | Ok (s', _) => cursor_work s quantum :: worked_steps turns s' quantum
          | _ => []
          end
      end
  end.

Fixpoint worked_until_quiet (fuel : nat) (s : Scheduler.t) (quantum : Z)
    : list Z :=
  match fuel with
  | O => []
  | S fuel =>
      match Scheduler.all_empty (Scheduler._queues s) (Scheduler._order s) with
      | Ok all_empty =>
          if all_empty && negb (Scheduler.any_skip s) then []
          else
            match Scheduler.turn_and_advance s quantum with
            | Ok (s', _) =>
                cursor_work s quantum :: worked_until_quiet fuel s' quantum
            | _ => []
            end
      | _ => []
      end
  end.

Definition worked_run (fuel : nat) (s : Scheduler.t) (quantum : Z)
    (steps : option Z) : list Z :=
  match steps with
  | Some steps =>
      if Scheduler.steps_invalid s steps then []
      else worked_steps (Z.to_nat steps) s quantum
  | None =>
      match Scheduler._order s with
      | [] => []
      | _ => worked_until_quiet fuel s quantum
      end
  end.

Definition worked_op (fuel : nat) (s : Scheduler.t) (o : op) : list Z :=
  match o with
  | RUN quantum steps => worked_run fuel s quantum steps
  | _ => []
  end.

Fixpoint worked_ops (heap : Z → bool) (fuel : nat) (s : Scheduler.t)
    (ops : list op) : list Z :=
  match ops with
  | [] => []
  | o :: ops =>
      match state_left (exec_op heap fuel s o) with
      | Some s' => worked_op fuel s o ++ worked_ops heap fuel s' ops
      | None => []
      end
  end.

Definition sum_Z (l : list Z) : Z := foldr Z.add 0%Z l.

Definition nonneg_quantum (o : op) : Prop :=
  match o with
  | RUN quantum _ => (0 ≤ quantum)%Z
  | _ => True
  end.





(** Every queue keeps its task counter and its capacity from [s] to
    [s']. *)
Definition counters_kept (s s' : Scheduler.t) : Prop :=
  ∀ k q, Scheduler._queues s !! k = Some q →
    ∃ q', Scheduler._queues s' !! k = Some q' ∧
          QueueRR._next_task_num q' = QueueRR._next_task_num q ∧
          QueueRR.capacity q' = QueueRR.capacity q.

(** Reading a decimal numeral back; leading zeros are allowed. *)
Definition parse_nat (s : string) : option nat :=
  Nat.of_uint <$> NilEmpty.uint_of_string s.

(** The ids returned by [n] successive calls of [next_task_id]. *)
Fixpoint task_ids (n : nat) (q : QueueRR.t) : list string :=
  match n with
  | O => []
  | S n =>
      let '(tid, q') := QueueRR.next_task_id q in
      tid :: task_ids n q'
  end.


(** A machine for the examples: lists of up to 4096 slots can be
    allocated. *)
Definition sample_heap (n : Z) : bool := (n <=? 4096)%Z.

(** A sample state: queue Q1 of capacity 2 holding one latte, with its
    skip flag set. *)
Definition sample_ops : list op :=
  [CREATE "Q1" 2%Z; ENQ "Q1" "latte"; SKIP "Q1"].

Definition sample_state : Scheduler.t :=
  match exec_ops sample_heap 0 Scheduler.init sample_ops with
  | Ok (s, _) => s
  | _ => Scheduler.init
  end.

(** A second sample state: queue Q1 of capacity 2 holding a latte and a
    tea, no skip flag pending. *)
Definition work_ops : list op :=
  [CREATE "Q1" 2%Z; ENQ "Q1" "latte"; ENQ "Q1" "tea"].

Definition work_state : Scheduler.t :=
  match exec_ops sample_heap 0 Scheduler.init work_ops with
  | Ok (s, _) => s
  | _ => Scheduler.init
  end.

(** The engine after the single command CREATE Q1 2: one empty queue,
    no flag pending. *)
Definition fresh_state : Scheduler.t :=
  match exec_ops sample_heap 0 Scheduler.init [CREATE "Q1" 2%Z] with
  | Ok (s, _) => s
  | _ => Scheduler.init
  end.

(** A third sample state: Q1 is created with capacity 2 and then
    created again with a capacity of [2 ** 63], for which the
    constructor raises OverflowError on every machine: the entry of Q1
    stays in the order, its queue is gone. *)
Definition lost_ops : list op :=
  [CREATE "Q1" 2%Z; CREATE "Q1" (2 ^ 63)%Z].

Definition lost_state : Scheduler.t :=
  match exec_ops sample_heap 0 Scheduler.init lost_ops with
  | Ok (s, _) => s
  | _ => Scheduler.init
  end.

(** The same with a second queue Q2 that holds a tea. *)
Definition lost_busy_ops : list op :=
  [CREATE "Q1" 2%Z; CREATE "Q2" 2%Z; ENQ "Q2" "tea"; CREATE "Q1" (2 ^ 63)%Z].

Definition lost_busy_state : Scheduler.t :=
  match exec_ops sample_heap 0 Scheduler.init lost_busy_ops with
  | Ok (s, _) => s
  | _ => Scheduler.init
  end.

(** ** Further specification-side definitions *)

(** The calls a client can make on a queue object, and what they
    return. *)
Inductive qop :=
  | QEnqueue (t : Task)
  | QDequeue
  | QPeek
  | QNextTaskId.

Inductive qout :=
  | RetBool (b : bool)
  | RetTask (t : option Task)
  | RetId (tid : string).

Definition run_qop (q : QueueRR.t) (o : qop)
    : result unit (QueueRR.t * qout) :=
  match o with
  | QEnqueue t => '(q, b) ← QueueRR.enqueue q t; Ok (q, RetBool b)
  | QDequeue => '(q, t) ← QueueRR.dequeue q; Ok (q, RetTask t)
  | QPeek => t ← QueueRR.peek q; Ok (q, RetTask t)
  | QNextTaskId =>
      let '(tid, q) := QueueRR.next_task_id q in Ok (q, RetId tid)
  end.

Fixpoint run_qops (q : QueueRR.t) (ops : list qop)
    : result unit (QueueRR.t * list qout) :=
  match ops with
  | [] => Ok (q, [])
  | o :: ops =>
      '(q, r) ← run_qop q o;
      '(q, rs) ← run_qops q ops;
      Ok (q, r :: rs)
  end.

(** A bounded first-in first-out list with an id counter: the abstract
    queue the ring buffer is meant to implement. *)
Record fifo := mk_fifo {
  fifo_id : string;
  fifo_cap : nat;
  fifo_items : list Task;
  fifo_next : nat
}.

Definition fifo_init (queue_id : string) (capacity : Z) : fifo :=
  {| fifo_id := queue_id; fifo_cap := Z.to_nat (Z.max 0 capacity);
     fifo_items := []; fifo_next := 1 |}.

Definition fifo_step (f : fifo) (o : qop) : fifo * qout :=
  match o with
  | QEnqueue t =>
      if fifo_cap f <=? length (fifo_items f) then (f, RetBool false)
      else
        ({| fifo_id := fifo_id f; fifo_cap := fifo_cap f;
            fifo_items := fifo_items f ++ [t]; fifo_next := fifo_next f |},
         RetBool true)
  | QDequeue =>
      match fifo_items f with
      | [] => (f, RetTask None)
      | t :: rest =>
          ({| fifo_id := fifo_id f; fifo_cap := fifo_cap f;
              fifo_items := rest; fifo_next := fifo_next f |},
           RetTask (Some t))
      end
  | QPeek => (f, RetTask (head (fifo_items f)))
  | QNextTaskId =>
      ({| fifo_id := fifo_id f; fifo_cap := fifo_cap f;
          fifo_items := fifo_items f; fifo_next := fifo_next f + 1 |},
       RetId (fifo_id f +:+ "-" +:+ py_fmt_03d (fifo_next f)))
  end.

Fixpoint fifo_run (f : fifo) (ops : list qop) : fifo * list qout :=
  match ops with
  | [] => (f, [])
  | o :: ops =>
      let '(f, r) := fifo_step f o in
      let '(f, rs) := fifo_run f ops in
      (f, r :: rs)
  end.

(** The ring buffer [q] implements the abstract queue [f]. *)
Definition implements (q : QueueRR.t) (f : fifo) : Prop :=
  Repr q (fifo_items f) ∧
  QueueRR.queue_id q = fifo_id f ∧
  QueueRR.capacity q = fifo_cap f ∧
  QueueRR._next_task_num q = fifo_next f.

(** [n] successive calls of [dequeue], collecting the tasks handed out. *)
Fixpoint drain (n : nat) (q : QueueRR.t)
    : result unit (QueueRR.t * list Task) :=
  match n with
  | O => Ok (q, [])
  | S n =>
      '(q, t) ← QueueRR.dequeue q;
      '(q, ts) ← drain n q;
      Ok (q, match t with Some t => t :: ts | None => ts end)
  end.

(** Classification of commands. *)
Definition creates (qid : string) (o : op) : bool :=
  match o with
  | CREATE k _ => bool_decide (k = qid)
  | _ => false
  end.

Definition submits (qid : string) (o : op) : bool :=
  match o with
  | ENQ k _ => bool_decide (k = qid)
  | _ => false
  end.


(** A command whose constructor call, if it makes one, does not raise. *)
Definition creatable (heap : Z → bool) (o : op) : Prop :=
  match o with
  | CREATE _ cap => allocatable heap cap = true
  | _ => True
  end.

(** From [s] to [s'] every queue is still there, with the same id and
    capacity, and its task counter has advanced by [n k]. *)
Definition queues_advance (n : string → nat) (s s' : Scheduler.t) : Prop :=
  ∀ k q, Scheduler._queues s !! k = Some q →
    ∃ q', Scheduler._queues s' !! k = Some q' ∧
          QueueRR.queue_id q' = QueueRR.queue_id q ∧
          QueueRR.capacity q' = QueueRR.capacity q ∧
          QueueRR._next_task_num q' = QueueRR._next_task_num q + n k.

(** ** Scheduler.display *)

(** The menu in the order the dictionary literal lists it, which is the
    order [self._menu.items()] yields. *)
Definition menu_items : list (string * Z) :=
  [("americano", 2%Z); ("latte", 3%Z); ("cappuccino", 3%Z);
   ("mocha", 4%Z); ("tea", 1%Z); ("macchiato", 2%Z);
   ("hot_chocolate", 4%Z)].

(** [sorted(items, key=lambda x: x[0])]: a stable sort by name, strings
    being compared character by character on their codes. *)
Fixpoint insert_by_name (x : string * Z) (l : list (string * Z))
    : list (string * Z) :=
  match l with
  | [] => [x]
  | y :: l' =>
      if String.leb x.1 y.1 then x :: l else y :: insert_by_name x l'
  end.

Definition py_sorted_by_name (l : list (string * Z)) : list (string * Z) :=
  foldr insert_by_name [] l.

Definition display_task (t : Task) : string :=
  task_id t +:+ ":" +:+ py_str_int (remaining t).

(** The body of the [for qid in self._order] loop of [display]. *)
Definition display_queue_line (self : Scheduler.t) (qid : string)
    : result Scheduler.t string :=
  match Scheduler._queues self !! qid with
  | None => Ok ("display " +:+ qid +:+ " [0/0] -> []")
  | Some q =>
      let size := QueueRR.len q in
      let cap := QueueRR.capacity q in
      let skip_flag :=
        if Scheduler.skip_get self qid then " [ skip]" else "" in
      contents ← in_state self (QueueRR.contents_front_to_back q);
      let tasks_str :=
        match contents with
        | [] => ""
        | _ => py_join "," (map display_task contents)
        end in
      Ok ("display " +:+ qid +:+ " [" +:+ py_str_nat size +:+ "/" +:+
          py_str_nat cap +:+ "]" +:+ skip_flag +:+ " -> [" +:+ tasks_str +:+
          "]")
  end.

Fixpoint display_queues (self : Scheduler.t) (order : list string)
    (lines : list string) : result Scheduler.t (list string) :=
  match order with
  | [] => Ok lines
  | qid :: order =>
      line ← display_queue_line self qid;
      display_queues self order (lines ++ [line])
  end.

Definition display_menu_line : string :=
  let menu_items := py_sorted_by_name menu_items in
  let menu_str :=
    py_join ","
      (map (λ '(name, minutes), name +:+ ":" +:+ py_str_int minutes)
           menu_items) in
  "display menu=[" +:+ menu_str +:+ "]".

Definition display (self : Scheduler.t)
    : result Scheduler.t (Scheduler.t * list string) :=
  let '(self, next_q) := Scheduler.next_queue self in
  let lines :=
    ["display time=" +:+ py_str_int (Scheduler._time self) +:+ " next=" +:+
     match next_q with Some q => q | None => "none" end] in
  let lines := lines ++ [display_menu_line] in
  lines ← display_queues self (Scheduler._order self) lines;
  Ok (self, lines).

(** ** src/parser.py

    Strings are sequences of characters with codes below 256. *)

(** [c.isspace()] for a character with code below 256: tab, line feed,
    vertical tab, form feed, carriage return, the separators 28 to 31,
    space, next line (133) and no-break space (160).  These are the
    characters [str.strip()] removes and [str.split()] splits on. *)
Definition py_isspace (c : ascii) : bool :=
  let n := nat_of_ascii c in
  (9 <=? n) && (n <=? 13) || (28 <=? n) && (n <=? 32) ||
  (n =? 133) || (n =? 160).

Fixpoint py_lstrip (s : string) : string :=
  match s with
  | EmptyString => EmptyString
  | String c s' => if py_isspace c then py_lstrip s' else s
  end.

Fixpoint py_rstrip (s : string) : string :=
  match s with
  | EmptyString => EmptyString
  | String c s' =>
      match py_rstrip s' with
      | EmptyString =>
          if py_isspace c then EmptyString else String c EmptyString
      | r => String c r
      end
  end.

(** [s.strip()] *)
Definition py_strip (s : string) : string := py_rstrip (py_lstrip s).

Definition push_token (tok : string) (toks : list string) : list string :=
  match tok with
  | EmptyString => toks
  | _ => tok :: toks
  end.

(** The token that starts at the head of [s] (empty when [s] starts
    with white space) and the tokens after it. *)
Fixpoint split_go (s : string) : string * list string :=
  match s with
  | EmptyString => (EmptyString, [])
  | String c s' =>
      let '(tok, toks) := split_go s' in
      if py_isspace c then (EmptyString, push_token tok toks)
      else (String c tok, toks)
  end.

(** [s.split()]: the maximal runs of characters that are not white
    space. *)
Definition py_split (s : string) : list string :=
  let '(tok, toks) := split_go s in push_token tok toks.

(** [s.startswith(p)] *)
Definition py_startswith (s p : string) : bool := String.prefix p s.

Definition parse_command (line : option string)
    : result unit (option (string * list string)) :=
  match line with
  | None => Ok None
  | Some line =>
      let s := py_strip line in
      match s with
      | EmptyString => Ok (Some ("", []))
      | _ =>
          if py_startswith s "#" then Ok None
          else
            let parts := py_split s in
            cmd ← py_getitem parts 0;
            let args := drop 1 parts in
            Ok (Some (cmd, args))
      end
  end.

Fixpoint string_forallb (p : ascii → bool) (s : string) : bool :=
  match s with
  | EmptyString => true
  | String c s' => p c && string_forallb p s'
  end.

(** A token: not empty and free of white space. *)
Definition is_token (t : string) : Prop :=
  t ≠ "" ∧ string_forallb (λ c, negb (py_isspace c)) t = true.

Definition all_space (s : string) : bool := string_forallb py_isspace s.

(** ** src/cli.py

    Standard input is the list of the lines still to be read
    ([readline] returns the empty string once the list is exhausted);
    standard output is the list of the lines printed.  [int(...)] on a
    token is a parameter: None stands for the ValueError it raises on a
    token that is not an integer literal.  The asynchronous
    KeyboardInterrupt is not modelled. *)

Section cli.

Variable heap : Z → bool.
Variable py_int : string → option Z.

Definition cli_error (sched : Scheduler.t) (reason : string) : string :=
  Scheduler._log_time_event sched "error" None None None (Some reason).

(** A call of the engine made after the lines [printed] have gone to
    standard output: an exception of the call leaves the [try] block
    with the engine as the call left it and with these lines printed. *)
Definition printing {A} (printed : list string)
    (m : result Scheduler.t A) : result (Scheduler.t * list string) A :=
  match m with
  | Ok a => Ok a
  | Raise e sched => Raise e (sched, printed)
  | OutOfFuel => OutOfFuel
  end.

(** The body of the inner [try] of [main_loop] for one parsed command:
    the engine afterwards and the lines printed. *)
Definition cli_try (fuel : nat) (sched : Scheduler.t) (cmd : string)
    (args : list string)
    : result (Scheduler.t * list string) (Scheduler.t * list string) :=
  if String.eqb cmd "CREATE" then
    match args with
    | [qid; cap] =>
        match py_int cap with
        | None => Raise ValueError (sched, [])
        | Some cap => printing [] (Scheduler.create_queue heap sched qid cap)
        end
    | _ => Ok (sched, [cli_error sched "invalid_args"])
    end
  else if String.eqb cmd "ENQ" then
    match args with
    | [qid; item] =>
        '(sched, logs, printed) ←
          printing [] (Scheduler.enqueue sched qid item);
        Ok (sched, printed ++ logs)
    | _ => Ok (sched, [cli_error sched "invalid_args"])
    end
  else if String.eqb cmd "SKIP" then
    match args with
    | [qid] => Ok (Scheduler.mark_skip sched qid)
    | _ => Ok (sched, [cli_error sched "invalid_args"])
    end
  else if String.eqb cmd "RUN" then
    match args with
    | [] => Ok (sched, [cli_error sched "invalid_args"])
    | quantum :: rest =>
        match py_int quantum with
        | None => Raise ValueError (sched, [])
        | Some quantum =>
            let steps :=
              match rest with
              | [] => Some None
              | steps :: _ => Some <$> py_int steps
              end in
            match steps with
            | None => Raise ValueError (sched, [])
            | Some steps =>
                '(sched, logs) ←
                  printing [] (Scheduler.run fuel sched quantum steps);
                '(sched, display_lines) ← printing logs (display sched);
                Ok (sched, logs ++ display_lines)
            end
        end
    end
  else Ok (sched, [cli_error sched "unknown_command"]).

(** The inner [try] with its [except Exception] clause, which catches
    every exception of the body and prints the [exception] event: the
    engine afterwards and the lines printed, or None when a
    run-to-quiescence exhausts the fuel. *)
Definition cli_dispatch (fuel : nat) (sched : Scheduler.t) (cmd : string)
    (args : list string) : option (Scheduler.t * list string) :=
  match cli_try fuel sched cmd args with
  | Ok r => Some r
  | Raise _ (sched, printed) =>
      Some (sched, printed ++ [cli_error sched "exception"])
  | OutOfFuel => None
  end.

(** How a session ends: [main_loop] returns (the engine it ends with is
    kept for the statements below), an exception leaves [main_loop], or
    a run-to-quiescence exhausts the fuel. *)
Inductive session :=
  | Ended (sched : Scheduler.t) (out : list string)
  | Crashed (e : exn) (out : list string)
  | Unfinished (out : list string).

Fixpoint main_loop_from (fuel : nat) (sched : Scheduler.t)
    (stdin : list string) (out : list string) : session :=
  match stdin with
  | [] => Ended sched (out ++ ["Break time!"])
  | line :: stdin =>
      match line with
      | EmptyString => Ended sched (out ++ ["Break time!"])
      | _ =>
          match py_strip line with
          | EmptyString => Ended sched (out ++ ["Break time!"])
          | _ =>
              match parse_command (Some line) with
              | Raise e _ => Crashed e out
              | OutOfFuel => Unfinished out
              | Ok None => main_loop_from fuel sched stdin out
              | Ok (Some (cmd, args)) =>
                  match cmd with
                  | EmptyString => Ended sched (out ++ ["Break time!"])
                  | _ =>
                      match cli_dispatch fuel sched cmd args with
                      | Some (sched, printed) =>
                          main_loop_from fuel sched stdin (out ++ printed)
                      | None => Unfinished out
                      end
                  end
              end
          end
      end
  end.

Definition main_loop (fuel : nat) (stdin : list string) : session :=
  main_loop_from fuel Scheduler.init stdin [].



End cli.

(** ** Arithmetic of ring indices *)

Lemma mod_wrap (a n : nat) :
  0 < n → a < 2 * n → a mod n = if a <? n then a else a - n.
Proof.
  intros Hn Ha. destruct (a <? n) eqn:E.
  - apply Nat.ltb_lt in E. by apply Nat.mod_small.
  - apply Nat.ltb_ge in E.
    replace a with ((a - n) + 1 * n) at 1 by lia.
    rewrite Nat.Div0.mod_add. apply Nat.mod_small. lia.
Qed.

Lemma ring_slots_distinct (h i j n : nat) :
  h < n → i < n → j < n → i ≠ j → (h + i) mod n ≠ (h + j) mod n.
Proof.
  intros Hh Hi Hj Hij.
  rewrite !mod_wrap by lia.
  destruct (h + i <? n) eqn:E1, (h + j <? n) eqn:E2;
    try apply Nat.ltb_lt in E1; try apply Nat.ltb_ge in E1;
    try apply Nat.ltb_lt in E2; try apply Nat.ltb_ge in E2; lia.
Qed.

Lemma py_mod_ok (a n : nat) : 0 < n → py_mod a n = Ok (a mod n).
Proof.
  intros Hn. unfold py_mod. destruct (n =? 0) eqn:E; [|done].
  apply Nat.eqb_eq in E. lia.
Qed.

(** ** The ring buffer implements a FIFO list *)

Lemma Repr_buf_pos q l : Repr q l → 0 < length (QueueRR._buf q).
Proof. intros (Hlen & _). lia. Qed.

(** The constructor returns exactly when the buffer can be allocated,
    and raises OverflowError or MemoryError otherwise. *)
Lemma init_cases (heap : Z → bool) (qid : string) (cap : Z) :
  if allocatable heap cap
  then QueueRR.init heap qid cap =
       Ok {| QueueRR.queue_id := qid;
             QueueRR.capacity := Z.to_nat (Z.max 0 cap);
             QueueRR._buf := replicate (Z.to_nat (Z.max 1 cap)) None;
             QueueRR._head := 0;
             QueueRR._size := 0;
             QueueRR._next_task_num := 1 |}
  else ∃ e, QueueRR.init heap qid cap = Raise e () ∧
            (e = OverflowError ∨ e = MemoryError).
Proof.
  unfold allocatable, QueueRR.init, py_list_repeat.
  assert ((if (0 <? Z.max 0 cap)%Z then Z.max 0 cap else 1%Z) = Z.max 1 cap)
    as -> by (destruct (Z.ltb_spec 0 (Z.max 0 cap)); lia).
  destruct (Z.ltb_spec (Z.max 1 cap) (- 2 ^ 63)) as [Hlow|_]; [lia|].
  destruct (Z.leb_spec (2 ^ 63) (Z.max 1 cap)) as [Hbig|Hfit];
    destruct (Z.ltb_spec (Z.max 1 cap) (2 ^ 63)) as [Hfit'|Hbig']; try lia;
    simpl.
  { exists OverflowError. split; [done|by left]. }
  destruct (Z.leb_spec (Z.max 1 cap) 0); [lia|].
  destruct (heap (Z.max 1 cap)); simpl; [done|].
  exists MemoryError. split; [done|by right].
Qed.

Lemma init_Ok (heap : Z → bool) (qid : string) (cap : Z) (q : QueueRR.t) :
  QueueRR.init heap qid cap = Ok q →
  allocatable heap cap = true ∧
  q = {| QueueRR.queue_id := qid;
         QueueRR.capacity := Z.to_nat (Z.max 0 cap);
         QueueRR._buf := replicate (Z.to_nat (Z.max 1 cap)) None;
         QueueRR._head := 0;
         QueueRR._size := 0;
         QueueRR._next_task_num := 1 |}.
Proof.
  intros H. pose proof (init_cases heap qid cap) as Hc.
  destruct (allocatable heap cap).
  - rewrite Hc in H. by injection H as <-.
  - destruct Hc as (e & Hc & _). congruence.
Qed.

Lemma Repr_init (heap : Z → bool) (qid : string) (cap : Z) (q : QueueRR.t) :
  QueueRR.init heap qid cap = Ok q → Repr q [].
Proof.
  intros H. apply init_Ok in H as [_ ->].
  unfold Repr; simpl. rewrite length_replicate.
  repeat split; try lia. intros i t Hi. done.
Qed.

Lemma enqueue_full (q : QueueRR.t) (t : Task) :
  QueueRR.capacity q ≤ QueueRR._size q → QueueRR.enqueue q t = Ok (q, false).
Proof.
  intros H. unfold QueueRR.enqueue.
  by destruct (Nat.leb_spec (QueueRR.capacity q) (QueueRR._size q)); [|lia].
Qed.

Lemma Repr_enqueue (q : QueueRR.t) (l : list Task) (t : Task) :
  Repr q l → QueueRR._size q < QueueRR.capacity q →
  ∃ q', QueueRR.enqueue q t = Ok (q', true) ∧ Repr q' (l ++ [t]) ∧
        QueueRR.queue_id q' = QueueRR.queue_id q ∧
        QueueRR.capacity q' = QueueRR.capacity q ∧
        QueueRR._next_task_num q' = QueueRR._next_task_num q.
Proof.
  intros (Hlen & Hhead & Hsize & Hcap & Hslots) Hroom.
  unfold QueueRR.enqueue.
  destruct (Nat.leb_spec (QueueRR.capacity q) (QueueRR._size q)); [lia|].
  rewrite py_mod_ok by lia. simpl.
  eexists; split; [reflexivity|]. split; [|done].
  unfold Repr; simpl. rewrite length_insert, length_app; simpl.
  repeat split; try lia.
  intros i t0 Hi.
  destruct (decide (i = length l)) as [->|Hne].
  - rewrite lookup_app_r in Hi by lia. rewrite Nat.sub_diag in Hi.
    simpl in Hi. injection Hi as <-. rewrite Hsize.
    apply list_lookup_insert_eq. apply Nat.mod_upper_bound. lia.
  - assert (i < length l).
    { apply lookup_lt_Some in Hi. rewrite length_app in Hi.
      simpl in Hi. lia. }
    rewrite lookup_app_l in Hi by lia.
    rewrite list_lookup_insert_ne; [by apply Hslots|].
    rewrite Hsize. apply ring_slots_distinct; lia.
Qed.

Lemma dequeue_empty (q : QueueRR.t) :
  QueueRR._size q = 0 → QueueRR.dequeue q = Ok (q, None).
Proof. intros H. unfold QueueRR.dequeue. by rewrite H. Qed.

Lemma Repr_dequeue (q : QueueRR.t) (t : Task) (l : list Task) :
  Repr q (t :: l) →
  ∃ q', QueueRR.dequeue q = Ok (q', Some t) ∧ Repr q' l ∧
        QueueRR.queue_id q' = QueueRR.queue_id q ∧
        QueueRR.capacity q' = QueueRR.capacity q ∧
        QueueRR._next_task_num q' = QueueRR._next_task_num q.
Proof.
  intros (Hlen & Hhead & Hsize & Hcap & Hslots). simpl in *.
  unfold QueueRR.dequeue. rewrite Hsize. simpl.
  pose proof (Hslots 0 t eq_refl) as H0.
  rewrite Nat.add_0_r, Nat.mod_small in H0 by lia.
  unfold py_getitem. rewrite H0. simpl.
  rewrite py_mod_ok by lia. simpl.
  eexists; split; [reflexivity|]. split; [|done].
  unfold Repr; simpl. rewrite length_insert.
  repeat split; try lia.
  - apply Nat.mod_upper_bound. lia.
  - intros i t0 Hi.
    rewrite Nat.Div0.add_mod_idemp_l.
    replace (QueueRR._head q + 1 + i) with (QueueRR._head q + S i) by lia.
    assert (i < length l) by (by apply lookup_lt_Some in Hi).
    rewrite list_lookup_insert_ne; [by apply Hslots|].
    intros Heq.
    apply (ring_slots_distinct (QueueRR._head q) 0 (S i)
             (length (QueueRR._buf q))); try lia.
    by rewrite Nat.add_0_r, Nat.mod_small by lia.
Qed.

Lemma Repr_peek (q : QueueRR.t) (l : list Task) :
  Repr q l → QueueRR.peek q = Ok (head l).
Proof.
  intros (Hlen & Hhead & Hsize & Hcap & Hslots).
  unfold QueueRR.peek. rewrite Hsize.
  destruct l as [|t l]; [done|]. simpl.
  pose proof (Hslots 0 t eq_refl) as H0.
  rewrite Nat.add_0_r, Nat.mod_small in H0 by lia.
  unfold py_getitem. by rewrite H0.
Qed.

Lemma contents_loop_Repr (q : QueueRR.t) (l : list Task) :
  Repr q l → ∀ n k out, k + n ≤ length l →
  QueueRR.contents_loop q (seq k n) out = Ok (out ++ take n (drop k l)).
Proof.
  intros HR. pose proof (Repr_buf_pos _ _ HR) as Hpos.
  destruct HR as (Hlen & Hhead & Hsize & Hcap & Hslots).
  induction n as [|n IH]; intros k out Hk; simpl.
  - by rewrite app_nil_r.
  - rewrite py_mod_ok by done. simpl.
    destruct (lookup_lt_is_Some_2 l k) as [t Ht]; [lia|].
    unfold py_getitem. rewrite (Hslots _ _ Ht). simpl.
    rewrite IH by lia.
    rewrite (drop_S _ _ _ Ht). simpl. by rewrite <- app_assoc.
Qed.

Lemma Repr_contents_front_to_back (q : QueueRR.t) (l : list Task) :
  Repr q l → QueueRR.contents_front_to_back q = Ok l.
Proof.
  intros HR. unfold QueueRR.contents_front_to_back.
  destruct HR as (Hlen & Hhead & Hsize & Hcap & Hslots) eqn:E.
  rewrite (contents_loop_Repr q l) by (done || lia).
  rewrite Hsize. simpl. by rewrite drop_0, firstn_all.
Qed.

Lemma Repr_contents (q : QueueRR.t) (l : list Task) :
  Repr q l → contents q = l.
Proof.
  intros HR. unfold contents.
  by rewrite (Repr_contents_front_to_back _ _ HR).
Qed.

Lemma Repr_size (q : QueueRR.t) (l : list Task) :
  Repr q l → QueueRR.len q = length l ∧ QueueRR.len q ≤ QueueRR.capacity q.
Proof. intros (Hlen & Hhead & Hsize & Hcap & Hslots). unfold QueueRR.len. lia. Qed.

(** ** The four outcomes of a single turn *)

Lemma skip_get_true (s : Scheduler.t) (qid : string) :
  Scheduler.skip_get s qid = true ↔
  Scheduler._skip_pending s !! qid = Some true.
Proof.
  unfold Scheduler.skip_get.
  destruct (Scheduler._skip_pending s !! qid) as [[]|]; simpl; naive_solver.
Qed.

Lemma turn_skip (s : Scheduler.t) (qid : string) (quantum : Z) :
  Scheduler.skip_get s qid = true →
  Scheduler._perform_single_turn s qid quantum =
  Ok (Scheduler.set_skip_pending s
        (<[qid := false]> (Scheduler._skip_pending s)),
      [Scheduler._log_time_event s "run" (Some qid) None None None;
       Scheduler._log_time_event s "skip" (Some qid) None None None]).
Proof. intros H. unfold Scheduler._perform_single_turn. by rewrite H. Qed.

Lemma turn_missing (s : Scheduler.t) (qid : string) (quantum : Z) :
  Scheduler.skip_get s qid = false →
  Scheduler._queues s !! qid = None →
  Scheduler._perform_single_turn s qid quantum =
  Ok (s, [Scheduler._log_time_event s "run" (Some qid) None None None]).
Proof.
  intros H Hq. unfold Scheduler._perform_single_turn. by rewrite H, Hq.
Qed.

Lemma turn_empty (s : Scheduler.t) (qid : string) (quantum : Z) q :
  Scheduler.skip_get s qid = false →
  Scheduler._queues s !! qid = Some q →
  QueueRR.len q = 0 →
  Scheduler._perform_single_turn s qid quantum =
  Ok (s, [Scheduler._log_time_event s "run" (Some qid) None None None]).
Proof.
  intros H Hq Hlen. unfold Scheduler._perform_single_turn.
  by rewrite H, Hq, Hlen.
Qed.

Lemma turn_finish (s : Scheduler.t) (qid : string) (quantum : Z) q t l :
  Scheduler.skip_get s qid = false →
  Scheduler._queues s !! qid = Some q →
  Repr q (t :: l) →
  (remaining t - Z.min (remaining t) quantum ≤ 0)%Z →
  ∃ q1, QueueRR.dequeue q = Ok (q1, Some t) ∧ Repr q1 l ∧
    QueueRR.queue_id q1 = QueueRR.queue_id q ∧
    QueueRR.capacity q1 = QueueRR.capacity q ∧
    QueueRR._next_task_num q1 = QueueRR._next_task_num q ∧
    let s' :=
      Scheduler.set_time
        (Scheduler.set_queues s (<[qid := q1]> (Scheduler._queues s)))
        (Scheduler._time s + Z.min (remaining t) quantum) in
    Scheduler._perform_single_turn s qid quantum =
    Ok (s',
        [Scheduler._log_time_event s "run" (Some qid) None None None;
         Scheduler._log_time_event s' "work" (Some qid) (Some (task_id t))
           (Some 0%Z) None;
         Scheduler._log_time_event s' "finish" (Some qid) (Some (task_id t))
           None None]).
Proof.
  intros H Hq HR Hdone.
  destruct (Repr_dequeue _ _ _ HR) as (q1 & Hdq & HR1 & Hid & Hcap & Hnum).
  exists q1. repeat (split; [done|]).
  unfold Scheduler._perform_single_turn. rewrite H, Hq.
  destruct (Repr_size _ _ HR) as [Hlen _]. rewrite Hlen. simpl.
  rewrite Hdq. simpl.
  destruct (Z.leb_spec (remaining t - Z.min (remaining t) quantum) 0); [done|lia].
Qed.

Lemma turn_requeue (s : Scheduler.t) (qid : string) (quantum : Z) q t l :
  Scheduler.skip_get s qid = false →
  Scheduler._queues s !! qid = Some q →
  Repr q (t :: l) →
  (0 < remaining t - Z.min (remaining t) quantum)%Z →
  let t' := {| task_id := task_id t;
               remaining := remaining t - Z.min (remaining t) quantum |} in
  ∃ q1 q2, QueueRR.dequeue q = Ok (q1, Some t) ∧
    QueueRR.enqueue q1 t' = Ok (q2, true) ∧
    Repr q2 (l ++ [t']) ∧
    QueueRR.queue_id q2 = QueueRR.queue_id q ∧
    QueueRR.capacity q2 = QueueRR.capacity q ∧
    QueueRR._next_task_num q2 = QueueRR._next_task_num q ∧
    let s' :=
      Scheduler.set_time
        (Scheduler.set_queues s (<[qid := q2]> (Scheduler._queues s)))
        (Scheduler._time s + Z.min (remaining t) quantum) in
    Scheduler._perform_single_turn s qid quantum =
    Ok (s',
        [Scheduler._log_time_event s "run" (Some qid) None None None;
         Scheduler._log_time_event s' "work" (Some qid) (Some (task_id t))
           (Some (remaining t')) None]).
Proof.
  intros H Hq HR Hleft t'.
  destruct (Repr_dequeue _ _ _ HR) as (q1 & Hdq & HR1 & Hid & Hcap & Hnum).
  destruct (Repr_size _ _ HR) as [Hlen Hle]. simpl in Hlen.
  assert (QueueRR._size q1 < QueueRR.capacity q1) as Hroom.
  { destruct HR1 as (_ & _ & Hs1 & _). unfold QueueRR.len in *. lia. }
  destruct (Repr_enqueue _ _ t' HR1 Hroom)
    as (q2 & Henq & HR2 & Hid2 & Hcap2 & Hnum2).
  exists q1, q2. repeat (split; [done || congruence|]).
  unfold Scheduler._perform_single_turn. rewrite H, Hq, Hlen. simpl.
  rewrite Hdq. simpl.
  destruct (Z.leb_spec (remaining t - Z.min (remaining t) quantum) 0); [lia|].
  fold t'. rewrite Henq. simpl.
  unfold Scheduler.set_queues, Scheduler.set_time; simpl.
  by rewrite insert_insert_eq.
Qed.

(** ** Sums over the dictionaries *)


Lemma map_sum_insert_None {A} (f : A → Z) (m : gmap string A) k v :
  m !! k = None → map_sum f (<[k := v]> m) = (f v + map_sum f m)%Z.
Proof.
  intros Hk. unfold map_sum.
  rewrite map_fold_insert_L; [done| |done]. intros; lia.
Qed.

Lemma map_sum_delete {A} (f : A → Z) (m : gmap string A) k v :
  m !! k = Some v → map_sum f m = (f v + map_sum f (delete k m))%Z.
Proof.
  intros Hk. unfold map_sum.
  rewrite (map_fold_delete_L _ _ k v m); [done| |done]. intros; lia.
Qed.

Lemma map_sum_insert_Some {A} (f : A → Z) (m : gmap string A) k old v :
  m !! k = Some old →
  map_sum f (<[k := v]> m) = (map_sum f m - f old + f v)%Z.
Proof.
  intros Hk. rewrite <- insert_delete_eq.
  rewrite map_sum_insert_None by apply lookup_delete_eq.
  rewrite (map_sum_delete f m k old Hk). lia.
Qed.



Lemma task_sum_app (l1 l2 : list Task) :
  task_sum (l1 ++ l2) = (task_sum l1 + task_sum l2)%Z.
Proof. induction l1 as [|t l1 IH]; simpl; [done|]. rewrite IH. lia. Qed.


Lemma Repr_queue_load (q : QueueRR.t) (l : list Task) :
  Repr q l → queue_load q = task_sum l.
Proof. intros HR. unfold queue_load. by rewrite (Repr_contents _ _ HR). Qed.

(** ** The state invariant is kept by every update *)

Lemma wf_delete_queue (s : Scheduler.t) (qid : string) :
  wf_state s →
  wf_state (Scheduler.set_queues s (delete qid (Scheduler._queues s))).
Proof.
  intros [H2 H3 H4 H5]. split; simpl; try done.
  - intros k [q Hk]. apply lookup_delete_Some in Hk as [_ Hk].
    apply H2. by eexists.
  - intros k q Hk. apply lookup_delete_Some in Hk as [_ Hk]. by apply H3.
Qed.

Lemma wf_init : wf_state Scheduler.init.
Proof.
  split; simpl.
  - intros qid [q H]. by rewrite lookup_empty in H.
  - intros qid q H. by rewrite lookup_empty in H.
  - intros qid [q H]. by rewrite lookup_empty in H.
  - lia.
Qed.

Lemma wf_set_time (s : Scheduler.t) (z : Z) :
  wf_state s → wf_state (Scheduler.set_time s z).
Proof. intros [H2 H3 H4 H5]. by split. Qed.

Lemma wf_set_next_index (s : Scheduler.t) (i : nat) :
  wf_state s → i < Nat.max 1 (length (Scheduler._order s)) →
  wf_state (Scheduler.set_next_index s i).
Proof. intros [H2 H3 H4 H5] Hi. by split. Qed.

Lemma wf_set_queue (s : Scheduler.t) (qid : string) q q' l' :
  wf_state s →
  Scheduler._queues s !! qid = Some q →
  QueueRR.queue_id q' = QueueRR.queue_id q →
  Repr q' l' → Forall positive_task l' →
  wf_state (Scheduler.set_queues s (<[qid := q']> (Scheduler._queues s))).
Proof.
  intros [H2 H3 H4 H5] Hq Hid HR Hpos. split; simpl; try done.
  - intros k Hk. rewrite lookup_insert in Hk.
    case_decide; [subst; apply H2; by eexists|by apply H2].
  - intros k x Hk. rewrite lookup_insert in Hk. case_decide.
    + injection Hk as <-. subst k. split; [|by exists l'].
      rewrite Hid. by apply (H3 qid q).
    + by apply H3.
Qed.

Lemma wf_set_skip (s : Scheduler.t) (qid : string) (b : bool) :
  wf_state s → qid ∈ Scheduler._order s →
  wf_state
    (Scheduler.set_skip_pending s (<[qid := b]> (Scheduler._skip_pending s))).
Proof.
  intros [H2 H3 H4 H5] Hin. split; simpl; try done.
  intros k Hk. rewrite lookup_insert in Hk. case_decide; [by subst|by apply H4].
Qed.

(** ** What a single turn does to a well-formed state *)

Lemma turn_total (s : Scheduler.t) (qid : string) (quantum : Z) :
  wf_state s →
  ∃ s' logs,
    Scheduler._perform_single_turn s qid quantum = Ok (s', logs) ∧
    wf_state s' ∧
    Scheduler._order s' = Scheduler._order s ∧
    Scheduler._next_index s' = Scheduler._next_index s ∧
    Scheduler._time s' = (Scheduler._time s + turn_work s qid quantum)%Z ∧
    total_remaining s' = (total_remaining s - turn_work s qid quantum)%Z ∧
    pending_skips s' =
      (pending_skips s - flag_weight (Scheduler.skip_get s qid))%Z ∧
    counters_kept s s'.
Proof.
  intros Hwf. unfold turn_work, counters_kept.
  destruct (Scheduler.skip_get s qid) eqn:Hskip.
  { rewrite (turn_skip _ _ _ Hskip). do 2 eexists. split; [done|].
    apply skip_get_true in Hskip.
    split.
    { apply wf_set_skip; [done|]. apply (wf_skip _ Hwf). by eexists. }
    unfold total_remaining, pending_skips. simpl. repeat split; try lia.
    - rewrite (map_sum_insert_Some _ _ _ true) by done. simpl. lia.
    - intros k q Hk. by exists q. }
  destruct (Scheduler._queues s !! qid) as [q|] eqn:Hq.
  2:{ rewrite (turn_missing _ _ _ Hskip Hq). do 2 eexists. split; [done|].
      split; [done|]. simpl. repeat split; try lia.
      intros k q Hk. by exists q. }
  destruct (wf_queues _ Hwf _ _ Hq) as (Hid & l & HR & Hpos).
  rewrite (Repr_peek _ _ HR).
  destruct l as [|t l]; simpl.
  { destruct (Repr_size _ _ HR) as [Hlen _]. simpl in Hlen.
    rewrite (turn_empty _ _ _ _ Hskip Hq Hlen). do 2 eexists. split; [done|].
    split; [done|]. repeat split; try lia.
    intros k q0 Hk. by exists q0. }
  assert (0 < remaining t)%Z as Hrem by (by inversion Hpos).
  assert (Forall positive_task l) as Hpos' by (by inversion Hpos).
  destruct (Z_le_gt_dec (remaining t - Z.min (remaining t) quantum) 0)
    as [Hdone|Hleft].
  - destruct (turn_finish _ _ quantum _ _ _ Hskip Hq HR Hdone)
      as (q1 & Hdq & HR1 & Hid1 & Hcap1 & Hnum1 & Hturn).
    simpl in Hturn. rewrite Hturn. do 2 eexists. split; [done|].
    split.
    { apply wf_set_time. by eapply wf_set_queue. }
    unfold total_remaining, pending_skips. simpl. repeat split; try lia.
    + rewrite (map_sum_insert_Some _ _ _ q) by done.
      rewrite (Repr_queue_load _ _ HR), (Repr_queue_load _ _ HR1). simpl. lia.
    + intros k q0 Hk. rewrite lookup_insert. case_decide.
      * subst k. exists q1. split; [done|]. split; congruence.
      * by exists q0.
  - destruct (turn_requeue _ _ quantum _ _ _ Hskip Hq HR)
      as (q1 & q2 & Hdq & Henq & HR2 & Hid2 & Hcap2 & Hnum2 & Hturn); [lia|].
    simpl in Hturn. rewrite Hturn. do 2 eexists. split; [done|].
    split.
    { apply wf_set_time. eapply wf_set_queue; [done..|].
      apply Forall_app. split; [done|]. apply Forall_cons. split; [|done].
      unfold positive_task; simpl. lia. }
    unfold total_remaining, pending_skips. simpl. repeat split; try lia.
    + rewrite (map_sum_insert_Some _ _ _ q) by done.
      rewrite (Repr_queue_load _ _ HR), (Repr_queue_load _ _ HR2).
      rewrite task_sum_app. simpl. lia.
    + intros k q0 Hk. rewrite lookup_insert. case_decide.
      * subst k. exists q2. split; [done|]. split; congruence.
      * by exists q0.
Qed.

Lemma counters_kept_refl (s : Scheduler.t) : counters_kept s s.
Proof. intros k q Hk. by exists q. Qed.

Lemma counters_kept_trans (s1 s2 s3 : Scheduler.t) :
  counters_kept s1 s2 → counters_kept s2 s3 → counters_kept s1 s3.
Proof.
  intros H12 H23 k q Hk.
  destruct (H12 k q Hk) as (q2 & Hk2 & Hn2 & Hc2).
  destruct (H23 k q2 Hk2) as (q3 & Hk3 & Hn3 & Hc3).
  exists q3. split; [done|]. split; congruence.
Qed.

Lemma turn_work_nonneg (s : Scheduler.t) (qid : string) (quantum : Z) :
  wf_state s → (0 ≤ quantum)%Z → (0 ≤ turn_work s qid quantum)%Z.
Proof.
  intros Hwf Hq. unfold turn_work.
  destruct (Scheduler.skip_get s qid); [done|].
  destruct (Scheduler._queues s !! qid) as [q|] eqn:E; [|done].
  destruct (wf_queues _ Hwf _ _ E) as (_ & l & HR & Hpos).
  rewrite (Repr_peek _ _ HR). destruct l as [|t l]; simpl; [done|].
  inversion Hpos as [|? ? Ht]; subst. unfold positive_task in Ht. lia.
Qed.

(** ** One iteration of the loops of [run] *)

Lemma cursor_in_order (s : Scheduler.t) :
  wf_state s → Scheduler._order s ≠ [] →
  ∃ qid, Scheduler._order s !! Scheduler._next_index s = Some qid ∧
         qid ∈ Scheduler._order s.
Proof.
  intros Hwf Hne. pose proof (wf_index _ Hwf) as Hi.
  destruct (Scheduler._order s) as [|x o] eqn:E; [done|].
  simpl in Hi.
  destruct (lookup_lt_is_Some_2 (x :: o) (Scheduler._next_index s))
    as [qid Hqid]; [simpl; lia|].
  exists qid. split; [done|]. by eapply list_elem_of_lookup_2.
Qed.

Lemma advance_index_nonempty (s : Scheduler.t) :
  Scheduler._order s ≠ [] →
  Scheduler.advance_index s =
  Scheduler.set_next_index s
    ((Scheduler._next_index s + 1) mod length (Scheduler._order s)).
Proof.
  intros Hne. unfold Scheduler.advance_index.
  by destruct (Scheduler._order s).
Qed.

Lemma turn_and_advance_total (s : Scheduler.t) (quantum : Z) :
  wf_state s → Scheduler._order s ≠ [] →
  ∃ qid s1 logs,
    Scheduler._order s !! Scheduler._next_index s = Some qid ∧
    Scheduler._perform_single_turn s qid quantum = Ok (s1, logs) ∧
    Scheduler.turn_and_advance s quantum =
    Ok (Scheduler.set_next_index s1
          ((Scheduler._next_index s + 1) mod length (Scheduler._order s)),
        logs).
Proof.
  intros Hwf Hne.
  destruct (cursor_in_order _ Hwf Hne) as (qid & Hqid & Hin).
  destruct (turn_total s qid quantum Hwf)
    as (s1 & logs & Hturn & Hwf1 & Hord & Hidx & _).
  exists qid, s1, logs. repeat (split; [done|]).
  unfold Scheduler.turn_and_advance, py_getitem. rewrite Hqid. simpl.
  rewrite Hturn. simpl. rewrite advance_index_nonempty by congruence.
  by rewrite Hord, Hidx.
Qed.

Lemma turn_and_advance_inv (s : Scheduler.t) (quantum : Z) :
  wf_state s → Scheduler._order s ≠ [] →
  ∃ s' logs,
    Scheduler.turn_and_advance s quantum = Ok (s', logs) ∧
    wf_state s' ∧
    Scheduler._order s' = Scheduler._order s ∧
    Scheduler._time s' = (Scheduler._time s + cursor_work s quantum)%Z ∧
    counters_kept s s'.
Proof.
  intros Hwf Hne.
  destruct (turn_and_advance_total s quantum Hwf Hne)
    as (qid & s1 & logs & Hqid & Hturn & Hta).
  destruct (turn_total s qid quantum Hwf)
    as (s1' & logs' & Hturn' & Hwf1 & Hord & Hidx & Htime & _ & _ & Hkept).
  rewrite Hturn in Hturn'. injection Hturn' as <- <-.
  do 2 eexists. split; [done|]. split.
  { apply wf_set_next_index; [done|]. rewrite Hord.
    assert (0 < length (Scheduler._order s)).
    { destruct (Scheduler._order s); [done|simpl; lia]. }
    pose proof (Nat.mod_upper_bound (Scheduler._next_index s + 1)
                  (length (Scheduler._order s))). lia. }
  simpl. repeat split; [done| |done].
  unfold cursor_work. by rewrite Hqid.
Qed.

Lemma cursor_work_nonneg (s : Scheduler.t) (quantum : Z) :
  wf_state s → (0 ≤ quantum)%Z → (0 ≤ cursor_work s quantum)%Z.
Proof.
  intros Hwf Hq. unfold cursor_work.
  destruct (Scheduler._order s !! Scheduler._next_index s); [|done].
  by apply turn_work_nonneg.
Qed.

(** ** The bounded loop of [run] *)

Lemma run_steps_inv (turns : nat) :
  ∀ (s : Scheduler.t) (quantum : Z) (logs : list string),
  wf_state s →
  ∃ s' logs',
    Scheduler.run_steps turns s quantum logs = Ok (s', logs') ∧
    wf_state s' ∧
    Scheduler._order s' = Scheduler._order s ∧
    Scheduler._time s' =
      (Scheduler._time s + sum_Z (worked_steps turns s quantum))%Z ∧
    counters_kept s s' ∧
    ((0 ≤ quantum)%Z → (0 ≤ sum_Z (worked_steps turns s quantum))%Z).
Proof.
  induction turns as [|turns IH]; intros s quantum logs Hwf; simpl.
  { exists s, logs. unfold sum_Z; simpl.
    repeat (split; [done || lia|]).
    split; [apply counters_kept_refl|lia]. }
  destruct (Scheduler._order s) as [|x o] eqn:Hord.
  { destruct (IH s quantum
       (logs ++ [Scheduler._log_time_event s "run" None None None None]) Hwf)
      as (s' & logs' & Hrun & Hwf' & Ho & Ht & Hk & Hn).
    exists s', logs'. rewrite Hord in Ho.
    split; [done|]. split; [done|]. split; [done|]. split; [done|].
    by split. }
  assert (Scheduler._order s ≠ []) as Hne by (by rewrite Hord).
  destruct (turn_and_advance_inv s quantum Hwf Hne)
    as (s1 & l1 & Hta & Hwf1 & Ho1 & Ht1 & Hk1).
  rewrite Hta. simpl.
  destruct (IH s1 quantum (logs ++ l1) Hwf1)
    as (s' & logs' & Hrun & Hwf' & Ho & Ht & Hk & Hn).
  exists s', logs'. split; [done|]. split; [done|].
  split; [congruence|]. split; [simpl; lia|].
  split; [by eapply counters_kept_trans|].
  intros Hq. simpl. pose proof (cursor_work_nonneg s quantum Hwf Hq).
  specialize (Hn Hq). lia.
Qed.

(** ** The quiescence test *)

Lemma all_empty_cases (queues : gmap string QueueRR.t) (order : list string) :
  match Scheduler.all_empty queues order with
  | Ok b =>
      b = true →
      ∀ qid, qid ∈ order → ∃ q, queues !! qid = Some q ∧ QueueRR.len q = 0
  | Raise e _ => e = KeyError ∧ ∃ qid, qid ∈ order ∧ queues !! qid = None
  | OutOfFuel => False
  end.
Proof.
  induction order as [|x o IH]; simpl.
  { intros _ qid H. by apply elem_of_nil in H. }
  destruct (queues !! x) as [q|] eqn:Hq.
  2:{ split; [done|]. exists x. split; [apply list_elem_of_here|done]. }
  destruct (QueueRR.len q =? 0) eqn:E; [|done].
  apply Nat.eqb_eq in E.
  destruct (Scheduler.all_empty queues o) as [b|e u|]; [| |done].
  - intros Hb qid Hin. apply elem_of_cons in Hin as [->|Hin].
    + by exists q.
    + by apply IH.
  - destruct IH as (-> & qid & Hin & Hnone). split; [done|].
    exists qid. split; [by apply list_elem_of_further|done].
Qed.


Lemma all_empty_spec (queues : gmap string QueueRR.t) (order : list string) :
  (∀ qid, qid ∈ order → is_Some (queues !! qid)) →
  ∃ b, Scheduler.all_empty queues order = Ok b ∧
       (b = true ↔
        ∀ qid q, qid ∈ order → queues !! qid = Some q → QueueRR.len q = 0).
Proof.
  induction order as [|x o IH]; intros Hdom; simpl.
  { exists true. split; [done|]. split; [|done].
    intros _ qid q H. by apply elem_of_nil in H. }
  destruct (Hdom x) as [q Hq]; [apply list_elem_of_here|]. rewrite Hq.
  destruct (QueueRR.len q =? 0) eqn:E.
  - apply Nat.eqb_eq in E.
    destruct IH as (b & Hb & Hiff).
    { intros qid Hin. apply Hdom. by apply list_elem_of_further. }
    exists b. split; [done|]. rewrite Hiff. split.
    + intros H qid q' Hin Hq'. apply elem_of_cons in Hin as [->|Hin].
      * congruence.
      * by eapply H.
    + intros H qid q' Hin. apply H. by apply list_elem_of_further.
  - apply Nat.eqb_neq in E. exists false. split; [done|].
    split; [done|]. intros H. exfalso. apply E.
    apply (H x q); [apply list_elem_of_here|done].
Qed.

Lemma any_skip_false (s : Scheduler.t) :
  Scheduler.any_skip s = false ↔
  ∀ qid, qid ∈ Scheduler._order s → Scheduler.skip_get s qid = false.
Proof.
  unfold Scheduler.any_skip. rewrite <- not_true_iff_false.
  rewrite existsb_exists. split.
  - intros H qid Hin. apply not_true_iff_false. intros Hs. apply H.
    exists qid. split; [by apply list_elem_of_In|done].
  - intros H (qid & Hin & Hs). apply list_elem_of_In in Hin.
    rewrite (H qid Hin) in Hs. done.
Qed.

(** ** The unbounded loop of [run], whenever it returns *)

Lemma run_until_quiet_inv (fuel : nat) :
  ∀ (s : Scheduler.t) (quantum : Z) (logs : list string),
  wf_state s → Scheduler._order s ≠ [] →
  match Scheduler.run_until_quiet fuel s quantum logs with
  | Raise e _ => e = KeyError
  | _ => True
  end ∧
  ∀ s',
    state_left (Scheduler.run_until_quiet fuel s quantum logs) = Some s' →
    wf_state s' ∧
    Scheduler._order s' = Scheduler._order s ∧
    Scheduler._time s' =
      (Scheduler._time s + sum_Z (worked_until_quiet fuel s quantum))%Z ∧
    counters_kept s s' ∧
    ((0 ≤ quantum)%Z → (0 ≤ sum_Z (worked_until_quiet fuel s quantum))%Z).
Proof.
  induction fuel as [|fuel IH]; intros s quantum logs Hwf Hne; simpl.
  { split; [done|]. intros s' H. done. }
  pose proof (all_empty_cases (Scheduler._queues s) (Scheduler._order s))
    as Hc.
  destruct (Scheduler.all_empty (Scheduler._queues s) (Scheduler._order s))
    as [b|e u|]; simpl; [| |done].
  2:{ destruct Hc as [-> _]. split; [done|]. intros s' H. injection H as <-.
      unfold sum_Z; simpl. repeat (split; [done || lia|]).
      split; [apply counters_kept_refl|lia]. }
  destruct (b && negb (Scheduler.any_skip s)).
  { split; [done|]. intros s' H. injection H as <-.
    unfold sum_Z; simpl. repeat (split; [done || lia|]).
    split; [apply counters_kept_refl|lia]. }
  destruct (turn_and_advance_inv s quantum Hwf Hne)
    as (s1 & l1 & Hta & Hwf1 & Ho1 & Ht1 & Hk1).
  rewrite Hta. simpl.
  assert (Scheduler._order s1 ≠ []) as Hne1 by congruence.
  destruct (IH s1 quantum (logs ++ l1) Hwf1 Hne1) as [Hnr Hok].
  split; [done|]. intros s' Hrun.
  destruct (Hok _ Hrun) as (Hwf' & Ho & Ht & Hk & Hn).
  split; [done|]. split; [congruence|]. split; [simpl; lia|].
  split; [by eapply counters_kept_trans|].
  intros Hq. simpl. pose proof (cursor_work_nonneg s quantum Hwf Hq).
  specialize (Hn Hq). lia.
Qed.

(** ** create_queue, enqueue and mark_skip *)

Lemma create_queue_cases (heap : Z → bool) (s : Scheduler.t) (qid : string)
    (cap : Z) :
  match Scheduler.create_queue heap s qid cap with
  | Ok (s', logs) =>
      ∃ q, QueueRR.init heap qid cap = Ok q ∧
        Scheduler._queues s' = <[qid := q]> (Scheduler._queues s) ∧
        Scheduler._order s' = Scheduler._order s ++ [qid] ∧
        Scheduler._skip_pending s' =
          <[qid := false]> (Scheduler._skip_pending s) ∧
        Scheduler._next_index s' = Scheduler._next_index s ∧
        Scheduler._time s' = Scheduler._time s ∧
        logs = [Scheduler._log_time_event s "create" (Some qid) None None None]
  | Raise e s' =>
      QueueRR.init heap qid cap = Raise e () ∧
      Scheduler._queues s' = delete qid (Scheduler._queues s) ∧
      Scheduler._order s' = Scheduler._order s ∧
      Scheduler._skip_pending s' = Scheduler._skip_pending s ∧
      Scheduler._next_index s' = Scheduler._next_index s ∧
      Scheduler._time s' = Scheduler._time s
  | OutOfFuel => False
  end.
Proof.
  unfold Scheduler.create_queue.
  pose proof (init_cases heap qid cap) as Hc.
  destruct (QueueRR.init heap qid cap) as [q|e []|]; simpl.
  - exists q. split; [done|]. case_decide as Hq; simpl.
    + split; [apply insert_delete_eq|done].
    + done.
  - split; [done|]. case_decide as Hq; simpl; [done|].
    split; [|done]. symmetry. apply delete_id.
    by apply eq_None_not_Some.
  - destruct (allocatable heap cap); [done|]. by destruct Hc as (e & Hc & _).
Qed.


Lemma wf_create_queue (heap : Z → bool) (s s' : Scheduler.t) (qid : string)
    (cap : Z) :
  wf_state s →
  state_left (Scheduler.create_queue heap s qid cap) = Some s' →
  wf_state s' ∧ Scheduler._time s' = Scheduler._time s.
Proof.
  intros [H2 H3 H4 H5] Hs.
  pose proof (create_queue_cases heap s qid cap) as Hc.
  destruct (Scheduler.create_queue heap s qid cap) as [[s1 logs]|e s1|];
    [| |done]; injection Hs as ->.
  - destruct Hc as (q & Hi & Hq & Ho & Hsk & Hn & Ht & _).
    split; [|done]. split.
    + intros k Hk. rewrite Hq, lookup_insert in Hk. rewrite Ho.
      apply elem_of_app.
      case_decide; [right; subst; apply list_elem_of_here|left; by apply H2].
    + intros k x Hk. rewrite Hq, lookup_insert in Hk. case_decide.
      * injection Hk as <-. subst k. split.
        { by apply init_Ok in Hi as [_ ->]. }
        exists []. split; [by eapply Repr_init|done].
      * by apply H3.
    + intros k Hk. rewrite Hsk, lookup_insert in Hk. rewrite Ho.
      apply elem_of_app.
      case_decide; [right; subst; apply list_elem_of_here|left; by apply H4].
    + rewrite Hn, Ho, length_app. simpl. lia.
  - destruct Hc as (_ & Hq & Ho & Hsk & Hn & Ht).
    split; [|done]. split.
    + intros k [x Hk]. rewrite Hq in Hk.
      apply lookup_delete_Some in Hk as [_ Hk]. rewrite Ho.
      apply H2. by eexists.
    + intros k x Hk. rewrite Hq in Hk.
      apply lookup_delete_Some in Hk as [_ Hk]. by apply H3.
    + intros k Hk. rewrite Hsk in Hk. rewrite Ho. by apply H4.
    + by rewrite Hn, Ho.
Qed.

Lemma wf_mark_skip (s : Scheduler.t) (qid : string) :
  wf_state s → wf_state (Scheduler.mark_skip s qid).1.
Proof.
  intros Hwf. unfold Scheduler.mark_skip.
  destruct (Scheduler._queues s !! qid) as [q|] eqn:Hq; simpl; [|done].
  apply wf_set_skip; [done|]. apply (wf_dom _ Hwf). by eexists.
Qed.

Lemma menu_positive (item : string) (burst : Z) :
  Scheduler._menu !! item = Some burst → (0 < burst)%Z.
Proof.
  intros H. apply elem_of_list_to_map_2 in H.
  repeat (apply elem_of_cons in H as [H|H]; [injection H; intros; lia|]).
  by apply elem_of_nil in H.
Qed.

Lemma enqueue_unknown_queue (s : Scheduler.t) (qid item : string) :
  Scheduler._queues s !! qid = None →
  Scheduler.enqueue s qid item =
  Ok (s,
      [Scheduler._log_time_event s "error" (Some qid) None None
         (Some "unknown_queue")], []).
Proof. intros H. unfold Scheduler.enqueue. by rewrite H. Qed.

Lemma enqueue_unknown_item (s : Scheduler.t) (qid item : string) q :
  Scheduler._queues s !! qid = Some q →
  Scheduler._menu !! item = None →
  Scheduler.enqueue s qid item =
  Ok (Scheduler.set_queues s
        (<[qid := (QueueRR.next_task_id q).2]> (Scheduler._queues s)),
      [Scheduler._log_time_event s "reject" (Some qid)
         (Some (QueueRR.next_task_id q).1) None (Some "unknown_item")],
      ["Sorry, we don't serve that."]).
Proof.
  intros Hq Hm. unfold Scheduler.enqueue. rewrite Hq. simpl. by rewrite Hm.
Qed.

Lemma enqueue_at_capacity (s : Scheduler.t) (qid item : string) q burst :
  Scheduler._queues s !! qid = Some q →
  Scheduler._menu !! item = Some burst →
  QueueRR.capacity q ≤ QueueRR.len q →
  Scheduler.enqueue s qid item =
  Ok (Scheduler.set_queues s
        (<[qid := (QueueRR.next_task_id q).2]> (Scheduler._queues s)),
      [Scheduler._log_time_event s "reject" (Some qid)
         (Some (QueueRR.next_task_id q).1) None (Some "full")],
      ["Sorry, we're at capacity."]).
Proof.
  intros Hq Hm Hfull. unfold Scheduler.enqueue. rewrite Hq. simpl.
  rewrite Hm. unfold QueueRR.len in *. simpl.
  by destruct (Nat.leb_spec (QueueRR.capacity q) (QueueRR._size q)); [|lia].
Qed.

Lemma enqueue_accept (s : Scheduler.t) (qid item : string) q l burst :
  Scheduler._queues s !! qid = Some q →
  Repr q l →
  Scheduler._menu !! item = Some burst →
  QueueRR.len q < QueueRR.capacity q →
  let task := {| task_id := (QueueRR.next_task_id q).1;
                 remaining := burst |} in
  ∃ q2, QueueRR.enqueue (QueueRR.next_task_id q).2 task = Ok (q2, true) ∧
    Repr q2 (l ++ [task]) ∧
    QueueRR.queue_id q2 = QueueRR.queue_id q ∧
    QueueRR.capacity q2 = QueueRR.capacity q ∧
    QueueRR._next_task_num q2 = QueueRR._next_task_num q + 1 ∧
    Scheduler.enqueue s qid item =
    Ok (Scheduler.set_queues s (<[qid := q2]> (Scheduler._queues s)),
        [Scheduler._log_time_event s "enqueue" (Some qid)
           (Some (task_id task)) (Some burst) None], []).
Proof.
  intros Hq HR Hm Hroom task.
  destruct (Repr_enqueue (QueueRR.next_task_id q).2 l task)
    as (q2 & Henq & HR2 & Hid & Hcap & Hnum); [done|done|].
  exists q2. repeat (split; [done|]).
  unfold Scheduler.enqueue. rewrite Hq.
  subst task. destruct (QueueRR.next_task_id q) as [tid qn] eqn:E.
  assert (QueueRR.capacity qn = QueueRR.capacity q ∧
          QueueRR.len qn = QueueRR.len q) as [Hc Hl].
  { unfold QueueRR.next_task_id in E. by injection E as <- <-. }
  simpl in *. rewrite Hm, Hc, Hl.
  destruct (Nat.leb_spec (QueueRR.capacity q) (QueueRR.len q)); [lia|].
  rewrite Henq. simpl.
  unfold Scheduler.set_queues; simpl. by rewrite insert_insert_eq.
Qed.

Lemma enqueue_inv (s : Scheduler.t) (qid item : string) :
  wf_state s →
  ∃ s' logs out,
    Scheduler.enqueue s qid item = Ok (s', logs, out) ∧
    wf_state s' ∧
    Scheduler._time s' = Scheduler._time s ∧
    Scheduler._order s' = Scheduler._order s ∧
    Scheduler._skip_pending s' = Scheduler._skip_pending s ∧
    Scheduler._next_index s' = Scheduler._next_index s.
Proof.
  intros Hwf.
  destruct (Scheduler._queues s !! qid) as [q|] eqn:Hq.
  2:{ rewrite (enqueue_unknown_queue _ _ _ Hq). by do 3 eexists. }
  destruct (wf_queues _ Hwf _ _ Hq) as (Hid & l & HR & Hpos).
  destruct (Scheduler._menu !! item) as [burst|] eqn:Hm.
  2:{ rewrite (enqueue_unknown_item _ _ _ _ Hq Hm). do 3 eexists.
      split; [done|]. split; [|done].
      by eapply (wf_set_queue s qid q _ l). }
  destruct (le_lt_dec (QueueRR.capacity q) (QueueRR.len q)) as [Hfull|Hroom].
  { rewrite (enqueue_at_capacity _ _ _ _ _ Hq Hm Hfull). do 3 eexists.
    split; [done|]. split; [|done].
    by eapply (wf_set_queue s qid q _ l). }
  destruct (enqueue_accept s qid item q l burst Hq HR Hm Hroom)
    as (q2 & _ & HR2 & Hid2 & _ & _ & Henq).
  rewrite Henq. do 3 eexists. split; [done|]. split; [|done].
  eapply wf_set_queue; [done..|].
  apply Forall_app. split; [done|]. apply Forall_cons. split; [|done].
  unfold positive_task; simpl. by eapply menu_positive.
Qed.

(** ** Sequences of commands *)

Lemma sum_Z_app (l1 l2 : list Z) :
  sum_Z (l1 ++ l2) = (sum_Z l1 + sum_Z l2)%Z.
Proof.
  unfold sum_Z. induction l1 as [|x l1 IH]; simpl; [done|]. rewrite IH. lia.
Qed.

Lemma run_inv (fuel : nat) (s : Scheduler.t) (quantum : Z)
    (steps : option Z) :
  wf_state s →
  match Scheduler.run fuel s quantum steps with
  | Raise e _ => e = KeyError ∧ steps = None
  | _ => True
  end ∧
  ∀ s', state_left (Scheduler.run fuel s quantum steps) = Some s' →
    wf_state s' ∧
    Scheduler._order s' = Scheduler._order s ∧
    Scheduler._time s' =
      (Scheduler._time s + sum_Z (worked_run fuel s quantum steps))%Z ∧
    counters_kept s s' ∧
    ((0 ≤ quantum)%Z → (0 ≤ sum_Z (worked_run fuel s quantum steps))%Z).
Proof.
  intros Hwf. unfold Scheduler.run, worked_run.
  destruct steps as [steps|].
  - destruct (Scheduler.steps_invalid s steps).
    { split; [done|]. intros s' H. injection H as <-.
      unfold sum_Z; simpl. repeat (split; [done || lia|]).
      split; [apply counters_kept_refl|lia]. }
    destruct (run_steps_inv (Z.to_nat steps) s quantum [] Hwf)
      as (s1 & l1 & Hrun & Hrest).
    rewrite Hrun. split; [done|]. intros s' H. by injection H as <-.
  - destruct (Scheduler._order s) as [|x o] eqn:Hord.
    { split; [done|]. intros s' H. injection H as <-.
      unfold sum_Z; simpl. repeat (split; [done || lia|]).
      split; [apply counters_kept_refl|lia]. }
    assert (Scheduler._order s ≠ []) as Hne by (by rewrite Hord).
    destruct (run_until_quiet_inv fuel s quantum [] Hwf Hne) as [Hnr Hok].
    split.
    { by destruct (Scheduler.run_until_quiet fuel s quantum []). }
    intros s' H. rewrite <- Hord. by apply Hok in H.
Qed.

Lemma exec_op_inv (heap : Z → bool) (fuel : nat) (s : Scheduler.t)
    (o : op) :
  wf_state s →
  ∀ s', state_left (exec_op heap fuel s o) = Some s' →
    wf_state s' ∧
    Scheduler._time s' = (Scheduler._time s + sum_Z (worked_op fuel s o))%Z ∧
    (nonneg_quantum o → (0 ≤ sum_Z (worked_op fuel s o))%Z).
Proof.
  intros Hwf s'. destruct o as [qid cap|qid item|qid|quantum steps];
    cbn [exec_op worked_op nonneg_quantum].
  - intros H. destruct (wf_create_queue heap s s' qid cap Hwf H) as [Hwf' Ht].
    split; [done|]. unfold sum_Z; simpl. lia.
  - destruct (enqueue_inv s qid item Hwf)
      as (s1 & l1 & o1 & Henq & Hwf1 & Ht & _).
    rewrite Henq. simpl. intros H.
    injection H as <-. unfold sum_Z; simpl. split; [done|]. lia.
  - intros H.
    assert (s' = (Scheduler.mark_skip s qid).1) as ->.
    { simpl in H. destruct (Scheduler.mark_skip s qid). by injection H. }
    split; [by apply wf_mark_skip|].
    assert (Scheduler._time (Scheduler.mark_skip s qid).1 = Scheduler._time s)
      as ->.
    { unfold Scheduler.mark_skip.
      by destruct (Scheduler._queues s !! qid). }
    unfold sum_Z; simpl. lia.
  - destruct (run_inv fuel s quantum steps Hwf) as [Hnr Hok].
    intros H.
    destruct (Hok _ H) as (Hwf' & _ & Ht & _ & Hn).
    split; [done|]. by split.
Qed.

Lemma exec_ops_no_raise (heap : Z → bool) (fuel : nat) (ops : list op) :
  ∀ s e s', exec_ops heap fuel s ops ≠ Raise e s'.
Proof.
  induction ops as [|o ops IH]; intros s e s'; simpl; [done|].
  destruct (exec_op heap fuel s o) as [[s1 l1]|e1 s1|]; [|apply IH|done].
  specialize (IH s1). simpl.
  destruct (exec_ops heap fuel s1 ops) as [[s2 l2]|e2 s2|]; simpl;
    [done| |done].
  by destruct (IH e2 s2).
Qed.

Lemma exec_ops_inv (heap : Z → bool) (fuel : nat) (ops : list op) :
  ∀ (s : Scheduler.t), wf_state s →
  ∀ s' logs, exec_ops heap fuel s ops = Ok (s', logs) →
    wf_state s' ∧
    Scheduler._time s' =
      (Scheduler._time s + sum_Z (worked_ops heap fuel s ops))%Z ∧
    (Forall nonneg_quantum ops →
     (0 ≤ sum_Z (worked_ops heap fuel s ops))%Z).
Proof.
  induction ops as [|o ops IH]; intros s Hwf; simpl.
  { intros s' logs H. injection H as <- <-.
    unfold sum_Z; simpl. split; [done|]. lia. }
  pose proof (exec_op_inv heap fuel s o Hwf) as Hop.
  assert (∀ s1, state_left (exec_op heap fuel s o) = Some s1 →
    ∀ s' logs, exec_ops heap fuel s1 ops = Ok (s', logs) →
      wf_state s' ∧
      Scheduler._time s' =
        (Scheduler._time s +
         sum_Z (worked_op fuel s o ++ worked_ops heap fuel s1 ops))%Z ∧
      (Forall nonneg_quantum (o :: ops) →
       (0 ≤ sum_Z (worked_op fuel s o ++ worked_ops heap fuel s1 ops))%Z))
    as Hstep.
  { intros s1 Hs1 s' logs Hrun.
    destruct (Hop s1 Hs1) as (Hwf1 & Ht1 & Hn1).
    destruct (IH s1 Hwf1 s' logs Hrun) as (Hwf2 & Ht2 & Hn2).
    rewrite sum_Z_app. split; [done|]. split; [lia|].
    intros Hall. inversion Hall; subst. specialize (Hn1 ltac:(done)).
    specialize (Hn2 ltac:(done)). lia. }
  destruct (exec_op heap fuel s o) as [[s1 l1]|e s1|]; simpl; [| |done].
  - intros s' logs H.
    destruct (exec_ops heap fuel s1 ops) as [[s2 l2]|e2 s2|] eqn:Hops;
      simpl in H; [|done..].
    injection H as <- <-. by eapply Hstep.
  - intros s' logs H. by eapply Hstep.
Qed.

(** ** Distance of the cursor to the next productive slot *)






(** ** Progress of the turns that are not idle *)





(** ** Run-to-quiescence terminates for a positive quantum *)




(** ** Run-to-quiescence with a quantum of zero or less *)



(** ** The format of task ids *)

Lemma uint_of_string_zeros (k : nat) (s : string) :
  NilEmpty.uint_of_string (zeros k +:+ s) =
  Nat.iter k Decimal.D0 <$> NilEmpty.uint_of_string s.
Proof.
  induction k as [|k IH].
  - change (zeros 0 +:+ s) with s. simpl.
    by destruct (NilEmpty.uint_of_string s).
  - change (zeros (S k) +:+ s) with (String "0"%char (zeros k +:+ s)).
    simpl. rewrite IH. by destruct (NilEmpty.uint_of_string s).
Qed.

Lemma of_uint_zeros (k : nat) (d : Decimal.uint) :
  Nat.of_uint (Nat.iter k Decimal.D0 d) = Nat.of_uint d.
Proof. induction k as [|k IH]; simpl; [done|]. exact IH. Qed.

Lemma parse_fmt_03d (n : nat) : parse_nat (py_fmt_03d n) = Some n.
Proof.
  unfold parse_nat, py_fmt_03d, py_str_nat.
  rewrite uint_of_string_zeros, NilEmpty.usu. simpl.
  by rewrite of_uint_zeros, DecimalNat.Unsigned.of_to.
Qed.

Lemma py_fmt_03d_inj (n m : nat) : py_fmt_03d n = py_fmt_03d m → n = m.
Proof.
  intros H. apply (f_equal parse_nat) in H.
  rewrite !parse_fmt_03d in H. by injection H.
Qed.

Lemma length_zeros (k : nat) : String.length (zeros k) = k.
Proof. induction k as [|k IH]; simpl; [done|]. by rewrite IH. Qed.

Lemma string_length_app (s1 s2 : string) :
  String.length (s1 +:+ s2) = String.length s1 + String.length s2.
Proof.
  induction s1 as [|a s1 IH]; [done|].
  change (String a s1 +:+ s2) with (String a (s1 +:+ s2)).
  simpl. by rewrite IH.
Qed.

Lemma py_fmt_03d_width (n : nat) : 3 ≤ String.length (py_fmt_03d n).
Proof.
  unfold py_fmt_03d. rewrite string_length_app, length_zeros. lia.
Qed.

Lemma string_app_inv_head (p s1 s2 : string) :
  p +:+ s1 = p +:+ s2 → s1 = s2.
Proof.
  induction p as [|a p IH]; [done|].
  change (String a p +:+ s1) with (String a (p +:+ s1)).
  change (String a p +:+ s2) with (String a (p +:+ s2)).
  intros H. injection H as H. auto.
Qed.

Lemma task_id_inj (qid : string) (n m : nat) :
  qid +:+ "-" +:+ py_fmt_03d n = qid +:+ "-" +:+ py_fmt_03d m → n = m.
Proof.
  intros H. apply string_app_inv_head in H.
  apply (string_app_inv_head "-") in H. by apply py_fmt_03d_inj.
Qed.

Lemma task_ids_spec (n : nat) :
  ∀ q, task_ids n q =
       map (λ k, QueueRR.queue_id q +:+ "-" +:+
                 py_fmt_03d (QueueRR._next_task_num q + k)) (seq 0 n).
Proof.
  induction n as [|n IH]; intros q; simpl; [done|].
  rewrite Nat.add_0_r. f_equal. rewrite IH. simpl.
  rewrite <- seq_shift, map_map. apply map_ext. intros k.
  by replace (QueueRR._next_task_num q + 1 + k)
    with (QueueRR._next_task_num q + S k) by lia.
Qed.

Lemma task_ids_NoDup (n : nat) (q : QueueRR.t) : NoDup (task_ids n q).
Proof.
  rewrite task_ids_spec. apply NoDup_fmap_2_strong; [|apply NoDup_seq].
  intros k1 k2 _ _ H. apply task_id_inj in H. lia.
Qed.

(** Every state reached from the initial one by a sequence of commands
    satisfies the invariant, whether or not a command raised on the
    way. *)
Lemma reachable_wf (heap : Z → bool) (fuel : nat) (ops : list op)
    (s : Scheduler.t) (logs : list string) :
  exec_ops heap fuel Scheduler.init ops = Ok (s, logs) → wf_state s.
Proof.
  intros H.
  by destruct (exec_ops_inv heap fuel ops Scheduler.init wf_init _ _ H).
Qed.

(** ** The sample state *)

Lemma sample_state_run :
  ∃ logs,
    exec_ops sample_heap 0 Scheduler.init sample_ops = Ok (sample_state, logs).
Proof. eexists. vm_compute. reflexivity. Qed.

Lemma wf_sample_state : wf_state sample_state.
Proof. destruct sample_state_run as [logs H]. by eapply reachable_wf. Qed.

Lemma work_state_run :
  ∃ logs,
    exec_ops sample_heap 0 Scheduler.init work_ops = Ok (work_state, logs).
Proof. eexists. vm_compute. reflexivity. Qed.

Lemma wf_work_state : wf_state work_state.
Proof. destruct work_state_run as [logs H]. by eapply reachable_wf. Qed.

Lemma lost_state_run :
  ∃ logs,
    exec_ops sample_heap 0 Scheduler.init lost_ops = Ok (lost_state, logs).
Proof. eexists. vm_compute. reflexivity. Qed.

Lemma wf_lost_state : wf_state lost_state.
Proof. destruct lost_state_run as [logs H]. by eapply reachable_wf. Qed.

Lemma lost_state_fields :
  Scheduler._queues lost_state = ∅ ∧
  Scheduler._order lost_state = ["Q1"] ∧
  Scheduler._skip_pending lost_state = {["Q1" := false]} ∧
  Scheduler._next_index lost_state = 0 ∧
  Scheduler._time lost_state = 0%Z.
Proof. repeat split; vm_compute; reflexivity. Qed.

(** The sample states in which every entry of the order has a queue. *)
Lemma queues_present_init : queues_present Scheduler.init.
Proof. intros qid H. by apply elem_of_nil in H. Qed.



(** * The claims *)




(** Rendering of the two events of a skipped turn. *)
Lemma log_run_skip_text (s : Scheduler.t) (qid : string) :
  Scheduler._log_time_event s "run" (Some qid) None None None =
    "time=" +:+ py_str_int (Scheduler._time s) +:+ " event=run queue=" +:+ qid
  ∧
  Scheduler._log_time_event s "skip" (Some qid) None None None =
    "time=" +:+ py_str_int (Scheduler._time s) +:+ " event=skip queue=" +:+ qid.
Proof.
  unfold Scheduler._log_time_event, Scheduler.opt_part; simpl.
  unfold String.append; simpl; fold String.append.
  split; f_equal; f_equal; f_equal; f_equal; f_equal;
    induction (py_str_int (Scheduler._time s)) as [|a x IH]; simpl;
    try reflexivity; by rewrite IH.
Qed.





(** C3: in every state reached by a sequence of commands, and after
    any single turn taken from such a state, every queue holds at most
    [capacity] tasks; [enqueue] on a queue whose size
    equals its capacity returns false and leaves the queue as it is,
    otherwise it returns true, appends the task at the back and keeps
    the capacity; a queue of capacity 0 (what a requested capacity of 0
    or less creates) rejects every task. *)
Theorem queue_size_bounded (heap : Z → bool) (fuel : nat) (ops : list op)
    (s : Scheduler.t) (logs : list string) (qid : string) (q : QueueRR.t)
    (t : Task) :
  exec_ops heap fuel Scheduler.init ops = Ok (s, logs) →
  Scheduler._queues s !! qid = Some q →
  QueueRR.len q ≤ QueueRR.capacity q ∧
  (QueueRR.len q = QueueRR.capacity q →
     QueueRR.enqueue q t = Ok (q, false)) ∧
  (QueueRR.len q ≠ QueueRR.capacity q →
     ∃ q', QueueRR.enqueue q t = Ok (q', true) ∧
       QueueRR.contents_front_to_back q' = Ok (contents q ++ [t]) ∧
       QueueRR.len q' = QueueRR.len q + 1 ∧
       QueueRR.len q' ≤ QueueRR.capacity q' ∧
       QueueRR.capacity q' = QueueRR.capacity q) ∧
  (QueueRR.capacity q = 0 → QueueRR.enqueue q t = Ok (q, false)) ∧
  (∀ id cap q0, (cap ≤ 0)%Z → QueueRR.init heap id cap = Ok q0 →
     QueueRR.capacity q0 = 0 ∧
     QueueRR.enqueue q0 t = Ok (q0, false)) ∧
  (∀ qid0 quantum, ∃ s1 l,
     Scheduler._perform_single_turn s qid0 quantum = Ok (s1, l) ∧
     ∀ k q1, Scheduler._queues s1 !! k = Some q1 →
       QueueRR.len q1 ≤ QueueRR.capacity q1).
Proof.
  intros Hrun Hq.
  pose proof (reachable_wf _ _ _ _ _ Hrun) as Hwf.
  destruct (wf_queues _ Hwf _ _ Hq) as (_ & l & HR & _).
  destruct (Repr_size _ _ HR) as [Hlen Hle].
  split; [done|].
  split; [intros E; apply enqueue_full; unfold QueueRR.len in E; lia|].
  split.
  { intros Hne.
    destruct (Repr_enqueue q l t HR) as (q' & Henq & HR' & _ & Hcap & _).
    { unfold QueueRR.len in *. lia. }
    exists q'. split; [done|].
    rewrite (Repr_contents _ _ HR).
    split; [by apply Repr_contents_front_to_back|].
    destruct (Repr_size _ _ HR') as [Hlen' Hle'].
    rewrite length_app in Hlen'. simpl in Hlen'.
    split; [lia|]. by split. }
  split; [intros E; apply enqueue_full; lia|].
  split.
  { intros id cap q0 Hcap Hi. apply init_Ok in Hi as [_ ->].
    assert (Z.to_nat (Z.max 0 cap) = 0) as E by lia.
    split; [done|]. apply enqueue_full. simpl. lia. }
  intros qid0 quantum.
  destruct (turn_total s qid0 quantum Hwf) as (s1 & l1 & Hturn & Hwf1 & _).
  exists s1, l1. split; [done|]. intros k q1 Hk.
  destruct (wf_queues _ Hwf1 _ _ Hk) as (_ & l2 & HR2 & _).
  by destruct (Repr_size _ _ HR2).
Qed.

Lemma queue_size_bounded_witness :
  ∃ q, Scheduler._queues sample_state !! "Q1" = Some q ∧
       QueueRR.len q ≤ QueueRR.capacity q.
Proof.
  destruct sample_state_run as [logs Hrun].
  assert (is_Some (Scheduler._queues sample_state !! "Q1")) as [q Hq]
    by (vm_compute; eauto).
  exists q. split; [exact Hq|].
  by destruct (queue_size_bounded sample_heap 0 sample_ops sample_state logs
                 "Q1" q (mkTask "Q1-009" 1) Hrun Hq) as [H _].
Defined.

(** C4, as the specification has it, fails when [run] is given a
    negative quantum, which the engine accepts: one turn on a queue
    holding a latte with quantum -1 takes the clock from 0 to -1. *)
Lemma clock_monotone_counterexample :
  ∃ s logs,
    exec_ops sample_heap 0 Scheduler.init
      [CREATE "Q1" 2; ENQ "Q1" "latte"; RUN (-1) (Some 1%Z)] = Ok (s, logs) ∧
    Scheduler._time Scheduler.init = 0%Z ∧
    Scheduler._time s = (-1)%Z ∧
    (Scheduler._time s < Scheduler._time Scheduler.init)%Z.
Proof.
  do 2 eexists. split; [vm_compute; reflexivity|].
  split; [reflexivity|]. split; [reflexivity|]. reflexivity.
Qed.

(** C4 (amended): along any sequence of commands the clock advances by
    exactly the sum of the worked amounts of the turns performed, and it
    never decreases when every quantum passed to [run] is non-negative;
    [create_queue], [enqueue] and [mark_skip] leave the clock alone; a
    turn advances it by [min(task.remaining, quantum)] for the task at
    the front, and by nothing when the skip flag is pending or the queue
    is empty. *)
Theorem clock_accounting (heap : Z → bool) (fuel : nat) (ops : list op)
    (s s' : Scheduler.t) (logs : list string) :
  wf_state s →
  exec_ops heap fuel s ops = Ok (s', logs) →
  Scheduler._time s' =
    (Scheduler._time s + sum_Z (worked_ops heap fuel s ops))%Z ∧
  (Forall nonneg_quantum ops → (Scheduler._time s ≤ Scheduler._time s')%Z) ∧
  (∀ qid cap s1,
     state_left (Scheduler.create_queue heap s qid cap) = Some s1 →
     Scheduler._time s1 = Scheduler._time s) ∧
  (∀ qid item s1 l out, Scheduler.enqueue s qid item = Ok (s1, l, out) →
     Scheduler._time s1 = Scheduler._time s) ∧
  (∀ qid, Scheduler._time (Scheduler.mark_skip s qid).1 = Scheduler._time s) ∧
  (∀ qid quantum, ∃ s1 l,
     Scheduler._perform_single_turn s qid quantum = Ok (s1, l) ∧
     Scheduler._time s1 = (Scheduler._time s + turn_work s qid quantum)%Z) ∧
  (∀ qid quantum, Scheduler.skip_get s qid = true →
     turn_work s qid quantum = 0%Z) ∧
  (∀ qid quantum q, Scheduler._queues s !! qid = Some q →
     QueueRR.len q = 0 → turn_work s qid quantum = 0%Z) ∧
  (∀ qid quantum q t l, Scheduler.skip_get s qid = false →
     Scheduler._queues s !! qid = Some q →
     QueueRR.contents_front_to_back q = Ok (t :: l) →
     turn_work s qid quantum = Z.min (remaining t) quantum).
Proof.
  intros Hwf Hrun.
  destruct (exec_ops_inv heap fuel ops s Hwf _ _ Hrun) as (Hwf' & Ht & Hn).
  split; [done|].
  split; [intros Hq; specialize (Hn Hq); lia|].
  split.
  { intros qid cap s1 Hc. by destruct (wf_create_queue heap s s1 qid cap Hwf Hc). }
  split.
  { intros qid item s1 l out Henq.
    destruct (enqueue_inv s qid item Hwf) as (s2 & l2 & o2 & Henq' & _ & E & _).
    rewrite Henq in Henq'. by injection Henq' as -> _ _. }
  split.
  { intros qid. unfold Scheduler.mark_skip.
    by destruct (Scheduler._queues s !! qid). }
  split.
  { intros qid quantum.
    destruct (turn_total s qid quantum Hwf)
      as (s1 & l & Hturn & _ & _ & _ & E & _).
    by exists s1, l. }
  split.
  { intros qid quantum Hskip. unfold turn_work. by rewrite Hskip. }
  split.
  { intros qid quantum q Hq Hlen. unfold turn_work. rewrite Hq.
    destruct (Scheduler.skip_get s qid); [done|].
    unfold QueueRR.peek, QueueRR.len in *. by rewrite Hlen. }
  intros qid quantum q t l Hskip Hq Hc. unfold turn_work.
  rewrite Hskip, Hq.
  destruct (wf_queues _ Hwf _ _ Hq) as (_ & l' & HR & _).
  rewrite (Repr_peek _ _ HR).
  rewrite (Repr_contents_front_to_back _ _ HR) in Hc. by injection Hc as ->.
Qed.

Lemma clock_accounting_witness :
  ∃ s' logs,
    exec_ops sample_heap 0 sample_state [RUN 2 (Some 1%Z); RUN 2 (Some 1%Z)]
      = Ok (s', logs) ∧
    Scheduler._time s' = 2%Z ∧
    worked_ops sample_heap 0 sample_state
      [RUN 2 (Some 1%Z); RUN 2 (Some 1%Z)]
      = [0%Z; 2%Z].
Proof.
  eexists _, _. split; [vm_compute; reflexivity|].
  split; [|vm_compute; reflexivity].
  match goal with
  | |- Scheduler._time ?s' = _ =>
      destruct (clock_accounting sample_heap 0
                  [RUN 2 (Some 1%Z); RUN 2 (Some 1%Z)]
                  sample_state s'
                  ["time=0 event=run queue=Q1"; "time=0 event=skip queue=Q1";
                   "time=0 event=run queue=Q1";
                   "time=2 event=work queue=Q1 task=Q1-001 remaining=1"]
                  wf_sample_state)
        as [Ht _]; [vm_compute; reflexivity|]
  end.
  rewrite Ht. vm_compute. reflexivity.
Defined.




Lemma task_ids_same_counter (n : nat) (q q' : QueueRR.t) :
  QueueRR.queue_id q' = QueueRR.queue_id q →
  QueueRR._next_task_num q' = QueueRR._next_task_num q →
  task_ids n q' = task_ids n q.
Proof. intros Hid Hnum. rewrite !task_ids_spec. by rewrite Hid, Hnum. Qed.

Lemma enqueue_keeps_counter (q q' : QueueRR.t) (t : Task) (b : bool) :
  QueueRR.enqueue q t = Ok (q', b) →
  QueueRR.queue_id q' = QueueRR.queue_id q ∧
  QueueRR._next_task_num q' = QueueRR._next_task_num q.
Proof.
  unfold QueueRR.enqueue.
  destruct (QueueRR.capacity q <=? QueueRR._size q).
  { intros H. by injection H as <- _. }
  destruct (py_mod _ _) as [pos| |]; simpl; [|done..].
  intros H. by injection H as <- _.
Qed.

Lemma dequeue_keeps_counter (q q' : QueueRR.t) (t : option Task) :
  QueueRR.dequeue q = Ok (q', t) →
  QueueRR.queue_id q' = QueueRR.queue_id q ∧
  QueueRR._next_task_num q' = QueueRR._next_task_num q.
Proof.
  unfold QueueRR.dequeue.
  destruct (QueueRR._size q =? 0).
  { intros H. by injection H as <- _. }
  destruct (py_getitem _ _) as [x| |]; simpl; [|done..].
  destruct (py_mod _ _) as [pos| |]; simpl; [|done..].
  intros H. by injection H as <- _.
Qed.

(** C7: the [k]-th call of [next_task_id] on a fresh queue (one the
    constructor has returned) gives
    [<queue-id>-<k>] with [k] counted from 1 and written in decimal,
    padded with zeros to at least three digits; each call advances the
    counter by one; the ids of any run of successive calls are pairwise
    distinct, and an id once handed out is not among those that follow;
    a rejected submission leaves the queue with the advanced counter;
    [enqueue] and [dequeue] leave the counter alone, so moving tasks in
    and out of the queue never brings an id back. *)
Theorem task_id_sequence (heap : Z → bool) (qid : string) (cap : Z)
    (n : nat) :
  (allocatable heap cap = true →
   ∃ q0, QueueRR.init heap qid cap = Ok q0 ∧
     task_ids n q0 =
       map (λ k, qid +:+ "-" +:+ py_fmt_03d (S k)) (seq 0 n)) ∧
  (∀ q, (QueueRR.next_task_id q).1 =
          QueueRR.queue_id q +:+ "-" +:+ py_fmt_03d (QueueRR._next_task_num q) ∧
        QueueRR._next_task_num (QueueRR.next_task_id q).2 =
          QueueRR._next_task_num q + 1 ∧
        QueueRR.queue_id (QueueRR.next_task_id q).2 = QueueRR.queue_id q) ∧
  (∀ k, py_fmt_03d k =
          zeros (3 - String.length (py_str_nat k)) +:+ py_str_nat k ∧
        3 ≤ String.length (py_fmt_03d k) ∧
        parse_nat (py_fmt_03d k) = Some k) ∧
  (py_fmt_03d 1 = "001" ∧ py_fmt_03d 42 = "042" ∧ py_fmt_03d 999 = "999" ∧
   py_fmt_03d 1000 = "1000") ∧
  (∀ q m, NoDup (task_ids m q)) ∧
  (∀ q m, (QueueRR.next_task_id q).1 ∉ task_ids m (QueueRR.next_task_id q).2) ∧
  (∀ s qid0 item q, Scheduler._queues s !! qid0 = Some q →
     Scheduler._menu !! item = None ∨ QueueRR.capacity q ≤ QueueRR.len q →
     ∃ logs out,
       Scheduler.enqueue s qid0 item =
       Ok (Scheduler.set_queues s
             (<[qid0 := (QueueRR.next_task_id q).2]> (Scheduler._queues s)),
           logs, out)) ∧
  (∀ q t q' b, QueueRR.enqueue q t = Ok (q', b) →
               task_ids n q' = task_ids n q) ∧
  (∀ q q' t, QueueRR.dequeue q = Ok (q', t) → task_ids n q' = task_ids n q).
Proof.
  split.
  { intros Ha. pose proof (init_cases heap qid cap) as Hi.
    rewrite Ha in Hi. eexists. split; [exact Hi|].
    rewrite task_ids_spec. apply map_ext. intros k. simpl.
    by replace (1 + k) with (S k) by lia. }
  split; [done|].
  split.
  { intros k. split; [done|].
    split; [apply py_fmt_03d_width|apply parse_fmt_03d]. }
  split; [by vm_compute|].
  split; [intros q m; apply task_ids_NoDup|].
  split.
  { intros q m Hin. pose proof (task_ids_NoDup (S m) q) as Hnd.
    simpl in Hnd. by apply NoDup_cons in Hnd as [Hnotin _]. }
  split.
  { intros s qid0 item q Hq Hrej.
    destruct (Scheduler._menu !! item) as [burst|] eqn:Hm.
    - destruct Hrej as [?|Hfull]; [done|].
      rewrite (enqueue_at_capacity _ _ _ _ _ Hq Hm Hfull). by do 2 eexists.
    - rewrite (enqueue_unknown_item _ _ _ _ Hq Hm). by do 2 eexists. }
  split.
  - intros q t q' b H. apply enqueue_keeps_counter in H as [Hid Hnum].
    by apply task_ids_same_counter.
  - intros q q' t H. apply dequeue_keeps_counter in H as [Hid Hnum].
    by apply task_ids_same_counter.
Qed.



Lemma quiescent_test (s : Scheduler.t) :
  queues_present s → quiescent s →
  Scheduler.all_empty (Scheduler._queues s) (Scheduler._order s) = Ok true ∧
  Scheduler.any_skip s = false.
Proof.
  intros Hpres [Hq Hs].
  destruct (all_empty_spec _ _ Hpres) as (b & Hb & Hiff).
  split.
  - rewrite Hb. f_equal. apply Hiff. intros qid q _ Hqq. by eapply Hq.
  - apply any_skip_false. intros qid _.
    apply not_true_iff_false. intros H. apply skip_get_true in H.
    by destruct (Hs qid).
Qed.

Lemma run_missing_queue (fuel : nat) (s : Scheduler.t) (quantum : Z)
    (qid : string) (o : list string) :
  Scheduler._order s = qid :: o →
  Scheduler._queues s !! qid = None →
  Scheduler.run (S fuel) s quantum None = Raise KeyError s.
Proof.
  intros Ho Hq. unfold Scheduler.run. rewrite Ho. simpl.
  by rewrite Ho; simpl; rewrite Hq.
Qed.

Lemma quiescent_lost_state : quiescent lost_state.
Proof.
  destruct lost_state_fields as (Hq & _ & Hsk & _). split.
  - intros qid q H. rewrite Hq in H. by rewrite lookup_empty in H.
  - intros qid H. rewrite Hsk in H.
    by apply lookup_singleton_Some in H as [_ ?].
Qed.

Lemma fresh_state_fields :
  ∃ q, Scheduler._queues fresh_state = {["Q1" := q]} ∧
       QueueRR.len q = 0 ∧
       Scheduler._order fresh_state = ["Q1"] ∧
       Scheduler._skip_pending fresh_state = {["Q1" := false]}.
Proof. eexists. repeat split; vm_compute; reflexivity. Qed.

(** C9: the engine reaches a state in which [run] does not do what the
    claim says.  After CREATE Q1 2 and a CREATE Q1 with capacity
    [2 ** 63], whose constructor raises once the old queue has been
    popped, no queue holds a task and no skip flag is pending, but the
    order still lists Q1.  There [run] without a step count raises
    KeyError at [self._queues[qid]] in its quiescence test, where the
    turn and [display] read the queue with [get] and take a missing
    queue for an empty one; it does not return an empty log. *)
Lemma run_quiescent_missing_queue :
  (∃ logs,
     exec_ops sample_heap 0 Scheduler.init
       [CREATE "Q1" 2; CREATE "Q1" (2 ^ 63)] = Ok (lost_state, logs)) ∧
  quiescent lost_state ∧
  Scheduler._order lost_state = ["Q1"] ∧
  Scheduler._queues lost_state !! "Q1" = None ∧
  (∀ fuel, Scheduler.run (S fuel) lost_state 1 None =
           Raise KeyError lost_state) ∧
  (∀ fuel, Scheduler.run fuel lost_state 1 None ≠ Ok (lost_state, [])) ∧
  (∃ l, Scheduler._perform_single_turn lost_state "Q1" 1 =
          Ok (lost_state, l)).
Proof.
  destruct lost_state_fields as (Hq & Ho & _).
  assert (Scheduler._queues lost_state !! "Q1" = None) as Hnone
    by (by rewrite Hq).
  split; [exact lost_state_run|].
  split; [exact quiescent_lost_state|].
  split; [done|]. split; [done|].
  split; [intros fuel; by eapply run_missing_queue|].
  split; [|eexists; vm_compute; reflexivity].
  intros [|fuel]; [by vm_compute|].
  by rewrite (run_missing_queue fuel lost_state 1 "Q1" [] Ho Hnone).
Qed.

(** C10: the engine reaches states in which [run] without a step
    count neither reaches quiescence nor loops.  After CREATE Q1 2 and a
    CREATE Q1 with capacity [2 ** 63], whose constructor raises once the
    old queue has been popped, the entry of Q1 has no queue, and [run]
    with quantum 1 raises KeyError at its first quiescence test, with
    any fuel.  When a second queue holds a task, [run] with quantum 1
    raises in the same way and leaves the task unworked, and [run] with
    quantum 0 raises instead of looping. *)
Lemma run_to_quiescence_missing_queue :
  (∃ logs,
     exec_ops sample_heap 0 Scheduler.init
       [CREATE "Q1" 2; CREATE "Q1" (2 ^ 63)] = Ok (lost_state, logs)) ∧
  (∀ fuel, Scheduler.run (S fuel) lost_state 1 None =
           Raise KeyError lost_state) ∧
  (∀ fuel s' logs, Scheduler.run fuel lost_state 1 None ≠ Ok (s', logs)) ∧
  (∃ logs,
     exec_ops sample_heap 0 Scheduler.init
       [CREATE "Q1" 2; CREATE "Q2" 2; ENQ "Q2" "tea"; CREATE "Q1" (2 ^ 63)]
     = Ok (lost_busy_state, logs)) ∧
  (∃ q, Scheduler._queues lost_busy_state !! "Q2" = Some q ∧
        QueueRR.len q = 1) ∧
  measure lost_busy_state = 1%Z ∧
  (∀ fuel, Scheduler.run (S fuel) lost_busy_state 1 None =
           Raise KeyError lost_busy_state) ∧
  (∀ fuel, Scheduler.run (S fuel) lost_busy_state 0 None =
           Raise KeyError lost_busy_state).
Proof.
  destruct lost_state_fields as (Hq & Ho & _).
  assert (Scheduler._queues lost_state !! "Q1" = None) as Hnone
    by (by rewrite Hq).
  split; [exact lost_state_run|].
  split; [intros fuel; by eapply run_missing_queue|].
  split.
  { intros [|fuel] s' logs; [by vm_compute|].
    by rewrite (run_missing_queue fuel lost_state 1 "Q1" [] Ho Hnone). }
  split; [eexists; vm_compute; reflexivity|].
  split; [eexists; split; vm_compute; reflexivity|].
  split; [vm_compute; reflexivity|].
  split; intros fuel.
  - apply (run_missing_queue fuel lost_busy_state 1 "Q1" ["Q2"]);
      vm_compute; reflexivity.
  - apply (run_missing_queue fuel lost_busy_state 0 "Q1" ["Q2"]);
      vm_compute; reflexivity.
Qed.

(** * Further properties of the queue and of the engine *)

(** ** The ring buffer against the abstract queue *)

Lemma implements_init (heap : Z → bool) (qid : string) (cap : Z)
    (q : QueueRR.t) :
  QueueRR.init heap qid cap = Ok q → implements q (fifo_init qid cap).
Proof.
  intros H. split; [by eapply Repr_init|].
  by apply init_Ok in H as [_ ->].
Qed.

Lemma init_returns (heap : Z → bool) (qid : string) (cap : Z) :
  allocatable heap cap = true ↔ ∃ q, QueueRR.init heap qid cap = Ok q.
Proof.
  pose proof (init_cases heap qid cap) as Hc. split.
  - intros Ha. rewrite Ha in Hc. by eexists.
  - intros [q Hq]. by apply init_Ok in Hq as [? _].
Qed.

Lemma implements_step (q : QueueRR.t) (f : fifo) (o : qop) :
  implements q f →
  ∃ q', run_qop q o = Ok (q', (fifo_step f o).2) ∧
        implements q' (fifo_step f o).1.
Proof.
  intros (HR & Hid & Hcap & Hnum).
  destruct (Repr_size _ _ HR) as [Hlen Hle]. unfold QueueRR.len in Hlen.
  destruct o as [t| | |]; simpl.
  - destruct (Nat.leb_spec (fifo_cap f) (length (fifo_items f))) as [Hf|Hf].
    + rewrite enqueue_full by lia. simpl. by exists q.
    + destruct (Repr_enqueue q _ t HR) as (q' & Henq & HR' & ? & ? & ?);
        [lia|].
      rewrite Henq. simpl. exists q'. split; [done|].
      split; [done|]. simpl. split; [congruence|]. split; congruence.
  - destruct (fifo_items f) as [|t rest] eqn:E.
    + rewrite dequeue_empty by done. simpl. exists q. split; [done|].
      split; [by rewrite E|done].
    + destruct (Repr_dequeue q t rest HR) as (q' & Hdq & HR' & ? & ? & ?).
      rewrite Hdq. simpl. exists q'. split; [done|].
      split; [done|]. simpl. split; [congruence|]. split; congruence.
  - rewrite (Repr_peek _ _ HR). simpl. by exists q.
  - exists (QueueRR.next_task_id q).2. split.
    { simpl. by rewrite Hid, Hnum. }
    split; [exact HR|]. simpl. by rewrite Hnum.
Qed.

Lemma implements_run (ops : list qop) :
  ∀ q f, implements q f →
  ∃ q', run_qops q ops = Ok (q', (fifo_run f ops).2) ∧
        implements q' (fifo_run f ops).1.
Proof.
  induction ops as [|o ops IH]; intros q f Himp; simpl.
  { by exists q. }
  destruct (implements_step q f o Himp) as (q1 & Hstep & Himp1).
  rewrite Hstep. simpl.
  destruct (fifo_step f o) as [f1 r] eqn:Ef. simpl in *.
  destruct (IH q1 f1 Himp1) as (q2 & Hrun & Himp2).
  rewrite Hrun. simpl.
  destruct (fifo_run f1 ops) as [f2 rs]. simpl in *. by exists q2.
Qed.

Lemma fifo_run_cap (ops : list qop) :
  ∀ f, fifo_cap (fifo_run f ops).1 = fifo_cap f.
Proof.
  induction ops as [|o ops IH]; intros f; simpl; [done|].
  destruct (fifo_step f o) as [f1 r] eqn:E.
  specialize (IH f1). destruct (fifo_run f1 ops) as [f2 rs]. simpl in *.
  rewrite IH. destruct o; simpl in E.
  - destruct (fifo_cap f <=? length (fifo_items f)); by injection E as <- _.
  - destruct (fifo_items f); by injection E as <- _.
  - by injection E as <- _.
  - by injection E as <- _.
Qed.

(** X1: the constructor returns a queue exactly when its buffer can be
    allocated, and for every sequence of [enqueue], [dequeue], [peek]
    and [next_task_id] calls on a queue it has returned, the ring buffer
    never raises, returns exactly what a bounded first-in first-out list
    with an id counter returns, and ends up holding the same tasks in the
    same order, with the same length, capacity and counter. *)
Theorem ring_buffer_refines_fifo (heap : Z → bool) (qid : string) (cap : Z)
    (ops : list qop) :
  (allocatable heap cap = true ↔ ∃ q0, QueueRR.init heap qid cap = Ok q0) ∧
  ∀ q0, QueueRR.init heap qid cap = Ok q0 →
  ∃ q,
    run_qops q0 ops = Ok (q, (fifo_run (fifo_init qid cap) ops).2) ∧
    QueueRR.contents_front_to_back q =
      Ok (fifo_items (fifo_run (fifo_init qid cap) ops).1) ∧
    QueueRR.len q = length (fifo_items (fifo_run (fifo_init qid cap) ops).1) ∧
    QueueRR.len q ≤ QueueRR.capacity q ∧
    QueueRR.capacity q = Z.to_nat (Z.max 0 cap) ∧
    QueueRR._next_task_num q = fifo_next (fifo_run (fifo_init qid cap) ops).1.
Proof.
  split; [apply init_returns|]. intros q0 Hinit.
  destruct (implements_run ops _ _ (implements_init heap qid cap q0 Hinit))
    as (q & Hrun & HR & Hid & Hcap & Hnum).
  exists q. split; [done|].
  split; [by apply Repr_contents_front_to_back|].
  destruct (Repr_size _ _ HR) as [Hlen Hle].
  split; [done|]. split; [done|]. split; [|done].
  rewrite Hcap. apply fifo_run_cap.
Qed.

Lemma drain_empty (k : nat) (q : QueueRR.t) :
  QueueRR._size q = 0 → drain k q = Ok (q, []).
Proof.
  intros Hq. induction k as [|k IH]; simpl; [done|].
  rewrite dequeue_empty by done. simpl. by rewrite IH.
Qed.

Lemma drain_Repr (l : list Task) :
  ∀ q, Repr q l →
  ∃ q', Repr q' [] ∧ ∀ k, drain (length l + k) q = Ok (q', l).
Proof.
  induction l as [|t l IH]; intros q HR; simpl.
  - exists q. split; [done|]. intros k. apply drain_empty.
    by destruct HR as (_ & _ & ? & _).
  - destruct (Repr_dequeue q t l HR) as (q1 & Hdq & HR1 & _).
    destruct (IH q1 HR1) as (q' & HR' & Hdrain).
    exists q'. split; [done|]. intros k.
    rewrite Hdq. simpl. by rewrite Hdrain.
Qed.

(** X2: whatever calls were made on a queue since it was created,
    calling [dequeue] as many times as it has tasks hands out exactly
    the tasks [contents_front_to_back] lists, in that order, and leaves
    an empty queue; further calls of [dequeue] return None and change
    nothing. *)
Theorem drain_returns_contents (heap : Z → bool) (qid : string) (cap : Z)
    (ops : list qop) (q0 q : QueueRR.t) (outs : list qout) (k : nat) :
  QueueRR.init heap qid cap = Ok q0 →
  run_qops q0 ops = Ok (q, outs) →
  ∃ q' l,
    QueueRR.contents_front_to_back q = Ok l ∧
    drain (QueueRR.len q) q = Ok (q', l) ∧
    drain (QueueRR.len q + k) q = Ok (q', l) ∧
    QueueRR.len q' = 0 ∧
    QueueRR.contents_front_to_back q' = Ok [] ∧
    QueueRR.dequeue q' = Ok (q', None) ∧
    QueueRR.peek q' = Ok None.
Proof.
  intros Hinit Hrun.
  destruct (implements_run ops _ _ (implements_init heap qid cap q0 Hinit))
    as (q1 & Hrun0 & HR & _).
  rewrite Hrun in Hrun0. injection Hrun0 as <- _.
  set (l := fifo_items (fifo_run (fifo_init qid cap) ops).1) in *.
  destruct (Repr_size _ _ HR) as [Hlen _].
  destruct (drain_Repr l q HR) as (q' & HR' & Hdrain).
  destruct (Repr_size _ _ HR') as [Hlen' _]. simpl in Hlen'.
  exists q', l. split; [by apply Repr_contents_front_to_back|].
  rewrite Hlen. split; [by rewrite <- (Hdrain 0), Nat.add_0_r|].
  split; [done|]. split; [done|].
  split; [by apply Repr_contents_front_to_back|].
  split; [by apply dequeue_empty|]. by rewrite (Repr_peek _ _ HR').
Qed.

Lemma drain_returns_contents_witness :
  ∃ q0 q q',
    QueueRR.init sample_heap "Q1" 2 = Ok q0 ∧
    run_qops q0
      [QEnqueue (mkTask "a" 1); QEnqueue (mkTask "b" 2); QDequeue;
       QEnqueue (mkTask "c" 3)]
    = Ok (q, [RetBool true; RetBool true; RetTask (Some (mkTask "a" 1));
              RetBool true]) ∧
    QueueRR._head q = 1 ∧
    drain 2 q = Ok (q', [mkTask "b" 2; mkTask "c" 3]).
Proof.
  eexists _, _, _. split; [vm_compute; reflexivity|].
  split; [vm_compute; reflexivity|]. split; [reflexivity|].
  match goal with
  | |- drain 2 ?q = _ =>
      destruct (drain_returns_contents sample_heap "Q1" 2
                  [QEnqueue (mkTask "a" 1); QEnqueue (mkTask "b" 2); QDequeue;
                   QEnqueue (mkTask "c" 3)] _ q
                  [RetBool true; RetBool true; RetTask (Some (mkTask "a" 1));
                   RetBool true] 0 eq_refl eq_refl)
        as (q' & l & Hc & Hd & _)
  end.
  vm_compute in Hc. injection Hc as <-. vm_compute. reflexivity.
Defined.

(** ** Marking a queue for a skip *)



(** ** The bounded loop: cursor and log *)







(** ** [run] on an engine without queues *)

(** X6: on an engine without queues, [run] accepts no step count but 1;
    with it, one [run] event without queue field is logged
    ("time=<clock> event=run") and the state is unchanged. *)
Theorem run_steps_without_queues (fuel : nat) (s : Scheduler.t)
    (quantum steps : Z) :
  Scheduler._order s = [] →
  (steps = 1%Z →
     Scheduler.run fuel s quantum (Some steps) =
       Ok (s, [Scheduler._log_time_event s "run" None None None None]) ∧
     Scheduler._log_time_event s "run" None None None None =
       "time=" +:+ py_str_int (Scheduler._time s) +:+ " event=run") ∧
  (steps ≠ 1%Z →
     Scheduler.run fuel s quantum (Some steps) =
       Ok (s, [Scheduler._log_time_event s "error" None None None
                 (Some "invalid_steps")])).
Proof.
  intros Hord. unfold Scheduler.run, Scheduler.steps_invalid.
  rewrite Hord. simpl. split.
  - intros ->. simpl. rewrite Hord. split; [done|].
    unfold Scheduler._log_time_event, Scheduler.opt_part; simpl.
    unfold String.append; simpl; fold String.append.
    do 5 f_equal;
      induction (py_str_int (Scheduler._time s)) as [|a x IH]; simpl;
      first [done|by rewrite IH].
  - intros Hne.
    destruct (Z.ltb_spec steps 1); simpl; [done|].
    destruct (Z.ltb_spec (Z.max 1 (Z.of_nat 0)) steps); simpl; [done|]. lia.
Qed.

Lemma run_steps_without_queues_witness :
  Scheduler.run 0 Scheduler.init 5 (Some 1%Z) =
    Ok (Scheduler.init, ["time=0 event=run"]) ∧
  Scheduler.run 0 Scheduler.init 5 (Some 2%Z) =
    Ok (Scheduler.init, ["time=0 event=error reason=invalid_steps"]).
Proof.
  destruct (run_steps_without_queues 0 Scheduler.init 5 1 eq_refl)
    as [H1 _].
  destruct (run_steps_without_queues 0 Scheduler.init 5 2 eq_refl)
    as [_ H2].
  split; [exact (proj1 (H1 eq_refl))|apply H2; discriminate].
Defined.

(** ** Time spent equals work removed *)

Lemma turn_and_advance_conserves (s : Scheduler.t) (quantum : Z) :
  wf_state s → Scheduler._order s ≠ [] →
  ∃ s' logs,
    Scheduler.turn_and_advance s quantum = Ok (s', logs) ∧
    wf_state s' ∧
    Scheduler._order s' = Scheduler._order s ∧
    (Scheduler._time s' + total_remaining s')%Z =
      (Scheduler._time s + total_remaining s)%Z ∧
    (pending_skips s' ≤ pending_skips s)%Z.
Proof.
  intros Hwf Hne.
  destruct (turn_and_advance_total s quantum Hwf Hne)
    as (qid & s1 & l1 & Hqid & Hturn & Hta).
  destruct (turn_and_advance_inv s quantum Hwf Hne)
    as (s2 & l2 & Hta' & Hwf2 & Hord2 & _).
  rewrite Hta in Hta'. injection Hta' as <- <-.
  destruct (turn_total s qid quantum Hwf)
    as (s1' & l1' & Hturn' & _ & _ & _ & Htime & Htot & Hpend & _).
  rewrite Hturn in Hturn'. injection Hturn' as <- <-.
  do 2 eexists. split; [exact Hta|]. split; [done|]. split; [done|].
  change (total_remaining (Scheduler.set_next_index s1 _))
    with (total_remaining s1).
  change (pending_skips (Scheduler.set_next_index s1 _))
    with (pending_skips s1).
  simpl. rewrite Htime, Htot, Hpend.
  split; [lia|]. destruct (Scheduler.skip_get s qid); simpl; lia.
Qed.

Lemma run_steps_conserves (turns : nat) :
  ∀ (s s' : Scheduler.t) (quantum : Z) (logs logs' : list string),
  wf_state s →
  Scheduler.run_steps turns s quantum logs = Ok (s', logs') →
  (Scheduler._time s' + total_remaining s')%Z =
    (Scheduler._time s + total_remaining s)%Z ∧
  (pending_skips s' ≤ pending_skips s)%Z.
Proof.
  induction turns as [|turns IH]; intros s s' quantum logs logs' Hwf Hrun;
    simpl in Hrun.
  { injection Hrun as <- _. lia. }
  destruct (Scheduler._order s) as [|x o] eqn:Hord.
  { by eapply IH. }
  assert (Scheduler._order s ≠ []) as Hne by (by rewrite Hord).
  destruct (turn_and_advance_conserves s quantum Hwf Hne)
    as (s1 & l1 & Hta & Hwf1 & _ & Hc & Hp).
  rewrite Hta in Hrun. simpl in Hrun.
  destruct (IH _ _ _ _ _ Hwf1 Hrun). lia.
Qed.

Lemma run_until_quiet_conserves (fuel : nat) :
  ∀ (s s' : Scheduler.t) (quantum : Z) (logs logs' : list string),
  wf_state s → Scheduler._order s ≠ [] →
  Scheduler.run_until_quiet fuel s quantum logs = Ok (s', logs') →
  (Scheduler._time s' + total_remaining s')%Z =
    (Scheduler._time s + total_remaining s)%Z ∧
  (pending_skips s' ≤ pending_skips s)%Z.
Proof.
  induction fuel as [|fuel IH]; intros s s' quantum logs logs' Hwf Hne Hrun;
    simpl in Hrun; [done|].
  destruct (Scheduler.all_empty _ _) as [b| |]; simpl in Hrun; try done.
  destruct (b && negb (Scheduler.any_skip s)).
  { injection Hrun as <- _. lia. }
  destruct (turn_and_advance_conserves s quantum Hwf Hne)
    as (s1 & l1 & Hta & Hwf1 & Hord1 & Hc & Hp).
  rewrite Hta in Hrun. simpl in Hrun.
  destruct (IH _ _ _ _ _ Hwf1 ltac:(congruence) Hrun). lia.
Qed.

(** X7: over any call of [run] that returns, with or without step
    count and for every quantum, the clock advances by exactly the
    amount by which the total remaining time of the queued tasks goes
    down; the number of pending skip flags never grows. *)
Theorem run_conserves_work (fuel : nat) (s s' : Scheduler.t) (quantum : Z)
    (steps : option Z) (logs : list string) :
  wf_state s →
  Scheduler.run fuel s quantum steps = Ok (s', logs) →
  (Scheduler._time s' - Scheduler._time s)%Z =
    (total_remaining s - total_remaining s')%Z ∧
  (pending_skips s' ≤ pending_skips s)%Z.
Proof.
  intros Hwf Hrun. unfold Scheduler.run in Hrun.
  destruct steps as [steps|].
  - destruct (Scheduler.steps_invalid s steps).
    { injection Hrun as <- _. lia. }
    destruct (run_steps_conserves _ _ _ _ _ _ Hwf Hrun). lia.
  - destruct (Scheduler._order s) as [|x o] eqn:Hord.
    { injection Hrun as <- _. lia. }
    assert (Scheduler._order s ≠ []) as Hne by (by rewrite Hord).
    destruct (run_until_quiet_conserves _ _ _ _ _ _ Hwf Hne Hrun). lia.
Qed.

Lemma run_conserves_work_witness :
  ∃ s' logs,
    Scheduler.run 20 work_state 2 None = Ok (s', logs) ∧
    total_remaining work_state = 4%Z ∧
    total_remaining s' = 0%Z ∧
    Scheduler._time s' = 4%Z.
Proof.
  destruct (Scheduler.run 20 work_state 2 None) as [[s' logs]| |] eqn:Hrun;
    [|by vm_compute in Hrun..].
  destruct (run_conserves_work 20 work_state s' 2 None logs wf_work_state
              Hrun) as [Hc _].
  exists s', logs. split; [reflexivity|].
  vm_compute in Hrun. injection Hrun as <- _.
  split; [vm_compute; reflexivity|].
  split; vm_compute; reflexivity.
Defined.

(** ** The turn that finishes a task *)



(** ** What a command does to the order and to the queues *)

Lemma enqueue_advance (s s' : Scheduler.t) (qid item : string)
    (l out : list string) :
  wf_state s →
  Scheduler.enqueue s qid item = Ok (s', l, out) →
  queues_advance (λ k, if bool_decide (qid = k) then 1 else 0) s s'.
Proof.
  intros Hwf Henq k q Hk.
  destruct (Scheduler._queues s !! qid) as [q0|] eqn:Hq0.
  2:{ rewrite (enqueue_unknown_queue _ _ _ Hq0) in Henq.
      injection Henq as <- _ _. exists q. rewrite bool_decide_false; [|congruence].
      rewrite Nat.add_0_r. done. }
  destruct (wf_queues _ Hwf _ _ Hq0) as (_ & l0 & HR & _).
  assert (∃ q1, Scheduler._queues s' = <[qid := q1]> (Scheduler._queues s) ∧
                QueueRR.queue_id q1 = QueueRR.queue_id q0 ∧
                QueueRR.capacity q1 = QueueRR.capacity q0 ∧
                QueueRR._next_task_num q1 = QueueRR._next_task_num q0 + 1)
    as (q1 & Hqs & Hid & Hcap & Hnum).
  { destruct (Scheduler._menu !! item) as [burst|] eqn:Hm.
    - destruct (le_lt_dec (QueueRR.capacity q0) (QueueRR.len q0))
        as [Hfull|Hroom].
      + rewrite (enqueue_at_capacity _ _ _ _ _ Hq0 Hm Hfull) in Henq.
        injection Henq as <- _ _. by eexists.
      + destruct (enqueue_accept s qid item q0 l0 burst Hq0 HR Hm Hroom)
          as (q2 & _ & _ & ? & ? & ? & Henq').
        rewrite Henq' in Henq. injection Henq as <- _ _. by exists q2.
    - rewrite (enqueue_unknown_item _ _ _ _ Hq0 Hm) in Henq.
      injection Henq as <- _ _. by eexists. }
  rewrite Hqs. case_bool_decide as Hd.
  - subst k. exists q1. rewrite lookup_insert_eq.
    assert (q = q0) as -> by congruence. done.
  - exists q. rewrite lookup_insert_ne by done. rewrite Nat.add_0_r. done.
Qed.

Lemma exec_op_advance (heap : Z → bool) (fuel : nat) (s s' : Scheduler.t)
    (o : op) :
  wf_state s →
  state_left (exec_op heap fuel s o) = Some s' →
  (Scheduler._order s' = Scheduler._order s ∨
   ∃ qid cap, o = CREATE qid cap ∧ allocatable heap cap = true ∧
     Scheduler._order s' = Scheduler._order s ++ [qid] ∧
     is_Some (Scheduler._queues s' !! qid)) ∧
  (∀ k, creates k o = false →
        ∀ q, Scheduler._queues s !! k = Some q →
        ∃ q', Scheduler._queues s' !! k = Some q' ∧
              QueueRR.queue_id q' = QueueRR.queue_id q ∧
              QueueRR.capacity q' = QueueRR.capacity q ∧
              QueueRR._next_task_num q' =
                QueueRR._next_task_num q + (if submits k o then 1 else 0)).
Proof.
  intros Hwf Hop.
  destruct o as [qid cap|qid item|qid|quantum steps];
    cbn [exec_op creates submits] in *.
  - pose proof (create_queue_cases heap s qid cap) as Hc.
    destruct (Scheduler.create_queue heap s qid cap) as [[s1 l1]|e s1|];
      [| |done]; injection Hop as ->.
    + destruct Hc as (q0 & Hi & Hq & Ho & _). split.
      * right. exists qid, cap. apply init_Ok in Hi as [Ha _].
        repeat (split; [done|]). rewrite Hq, lookup_insert_eq. by eexists.
      * intros k Hk q Hkq. apply bool_decide_eq_false in Hk.
        exists q. rewrite Hq, lookup_insert_ne by done. by rewrite Nat.add_0_r.
    + destruct Hc as (_ & Hq & Ho & _). split; [by left|].
      intros k Hk q Hkq. apply bool_decide_eq_false in Hk.
      exists q. rewrite Hq, lookup_delete_ne by done. by rewrite Nat.add_0_r.
  - destruct (Scheduler.enqueue s qid item) as [[[s1 l1] o1]|e s1|] eqn:Henq;
      simpl in Hop; try done.
    2:{ destruct (enqueue_inv s qid item Hwf) as (? & ? & ? & Henq' & _).
        congruence. }
    injection Hop as <-.
    destruct (enqueue_inv s qid item Hwf)
      as (s2 & l2 & o2 & Henq' & _ & _ & Ho & _).
    rewrite Henq in Henq'. injection Henq' as <- _ _.
    pose proof (enqueue_advance _ _ _ _ _ _ Hwf Henq) as Hadv.
    split; [by left|]. intros k _ q Hq. exact (Hadv k q Hq).
  - assert (s' = (Scheduler.mark_skip s qid).1) as ->.
    { simpl in Hop. destruct (Scheduler.mark_skip s qid). by injection Hop. }
    unfold Scheduler.mark_skip.
    destruct (Scheduler._queues s !! qid); simpl;
      (split; [by left|]; intros k _ q Hq; exists q;
       by rewrite Nat.add_0_r).
  - destruct (run_inv fuel s quantum steps Hwf) as [_ Hok].
    destruct (Hok _ Hop) as (Hwf' & Ho & _ & Hkept & _).
    split; [by left|].
    intros k _ q Hq. destruct (Hkept k q Hq) as (q' & Hq' & Hn & Hc).
    exists q'. rewrite Nat.add_0_r. split; [done|]. split; [|done].
    destruct (wf_queues _ Hwf _ _ Hq) as [-> _].
    by destruct (wf_queues _ Hwf' _ _ Hq') as [-> _].
Qed.

(** A command for which no constructor call raises keeps every entry
    of the order with a queue. *)
Lemma exec_op_present (heap : Z → bool) (fuel : nat) (s s' : Scheduler.t)
    (o : op) :
  wf_state s → queues_present s → creatable heap o →
  state_left (exec_op heap fuel s o) = Some s' →
  queues_present s'.
Proof.
  intros Hwf Hpres Hcr Hop.
  destruct (exec_op_advance heap fuel s s' o Hwf Hop) as [Hord Hkeep].
  assert (∀ k, k ∈ Scheduler._order s → is_Some (Scheduler._queues s' !! k))
    as Hold.
  { intros k Hin. destruct (Hpres k Hin) as [q Hq].
    destruct (creates k o) eqn:Hc.
    - destruct o as [qid cap| | |]; try done. simpl in Hc, Hcr.
      apply bool_decide_eq_true in Hc as ->.
      destruct Hord as [Hord|(qid' & cap' & Heq & _ & _ & Hs)].
      + exfalso. simpl in Hop.
        pose proof (create_queue_cases heap s k cap) as Hcases.
        pose proof (init_cases heap k cap) as Hi. rewrite Hcr in Hi.
        destruct (Scheduler.create_queue heap s k cap) as [[s1 l1]|e s1|];
          [| |done]; injection Hop as ->.
        * destruct Hcases as (_ & _ & _ & Ho & _). rewrite Ho in Hord.
          apply (f_equal length) in Hord. rewrite length_app in Hord.
          simpl in Hord. lia.
        * destruct Hcases as (Hr & _). congruence.
      + by injection Heq as <- _.
    - destruct (Hkeep k Hc q Hq) as (q' & Hq' & _). by eexists. }
  intros k Hin.
  destruct Hord as [Hord|(qid & cap & _ & _ & Hord & Hs)]; rewrite Hord in Hin.
  - by apply Hold.
  - apply elem_of_app in Hin as [Hin|Hin]; [by apply Hold|].
    by apply list_elem_of_singleton in Hin as ->.
Qed.

Lemma exec_ops_present (heap : Z → bool) (fuel : nat) (ops : list op) :
  ∀ s s' logs, wf_state s → queues_present s →
  Forall (creatable heap) ops →
  exec_ops heap fuel s ops = Ok (s', logs) →
  queues_present s'.
Proof.
  induction ops as [|o ops IH]; intros s s' logs Hwf Hpres Hall Hrun;
    simpl in Hrun.
  { by injection Hrun as <- _. }
  inversion Hall as [|? ? Ho Hrest]; subst.
  pose proof (exec_op_inv heap fuel s o Hwf) as Hinv.
  pose proof (λ s1, exec_op_present heap fuel s s1 o Hwf Hpres Ho) as Hp.
  destruct (exec_op heap fuel s o) as [[s1 l1]|e s1|]; [| |done].
  - destruct (Hinv s1 eq_refl) as (Hwf1 & _).
    specialize (Hp s1 eq_refl).
    destruct (exec_ops heap fuel s1 ops) as [[s2 l2]|e2 s2|] eqn:Hops;
      simpl in Hrun; [|done..].
    injection Hrun as <- _. by eapply IH.
  - destruct (Hinv s1 eq_refl) as (Hwf1 & _).
    specialize (Hp s1 eq_refl). by eapply IH.
Qed.




(** ** What holds in every reachable state *)

(** X9: in every state reached by a sequence of commands, whatever the
    quanta (negative ones included), [contents_front_to_back] of every
    queue returns without raising, lists as many tasks as [len] reports,
    and every listed task has a remaining time above zero. *)
Theorem reachable_tasks_positive (heap : Z → bool) (fuel : nat)
    (ops : list op) (s : Scheduler.t) (logs : list string) (qid : string)
    (q : QueueRR.t) :
  exec_ops heap fuel Scheduler.init ops = Ok (s, logs) →
  Scheduler._queues s !! qid = Some q →
  ∃ l, QueueRR.contents_front_to_back q = Ok l ∧
       length l = QueueRR.len q ∧
       Forall (λ t, (0 < remaining t)%Z) l.
Proof.
  intros Hrun Hq. pose proof (reachable_wf _ _ _ _ _ Hrun) as Hwf.
  destruct (wf_queues _ Hwf _ _ Hq) as (_ & l & HR & Hpos).
  exists l. split; [by apply Repr_contents_front_to_back|].
  destruct (Repr_size _ _ HR) as [Hlen _]. by split.
Qed.

Lemma reachable_tasks_positive_witness :
  ∃ s logs q l,
    exec_ops sample_heap 0 Scheduler.init
      [CREATE "Q1" 2; ENQ "Q1" "latte"; RUN (-7) (Some 1%Z)] = Ok (s, logs) ∧
    Scheduler._queues s !! "Q1" = Some q ∧
    QueueRR.contents_front_to_back q = Ok l ∧
    Forall (λ t, (0 < remaining t)%Z) l.
Proof.
  destruct (exec_ops sample_heap 0 Scheduler.init
              [CREATE "Q1" 2; ENQ "Q1" "latte"; RUN (-7) (Some 1%Z)])
    as [[s logs]| |] eqn:Hrun; [|by vm_compute in Hrun..].
  assert (is_Some (Scheduler._queues s !! "Q1")) as [q Hq].
  { vm_compute in Hrun. injection Hrun as <- _. vm_compute. eauto. }
  destruct (reachable_tasks_positive sample_heap 0 _ s logs "Q1" q Hrun Hq)
    as (l & Hc & _ & Hpos).
  by exists s, logs, q, l.
Defined.

(** X10: in every state reached by a sequence of commands, whether or
    not a command raised on the way, every id that has a queue is in the
    order, every id with a skip flag is in the order, every queue object
    carries the id it is stored under, and the cursor is a valid index
    into the order (0 when there is no queue); and when the constructor
    can allocate the buffer of every CREATE command of the sequence, the
    order lists exactly the ids that have a queue. *)
Theorem reachable_state_consistent (heap : Z → bool) (fuel : nat)
    (ops : list op) (s : Scheduler.t) (logs : list string) :
  exec_ops heap fuel Scheduler.init ops = Ok (s, logs) →
  (∀ qid, is_Some (Scheduler._queues s !! qid) → qid ∈ Scheduler._order s) ∧
  (∀ qid, is_Some (Scheduler._skip_pending s !! qid) →
          qid ∈ Scheduler._order s) ∧
  (∀ qid q, Scheduler._queues s !! qid = Some q →
            QueueRR.queue_id q = qid) ∧
  (Scheduler._order s ≠ [] →
   is_Some (Scheduler._order s !! Scheduler._next_index s)) ∧
  (Scheduler._order s = [] → Scheduler._next_index s = 0) ∧
  (Forall (creatable heap) ops →
   ∀ qid, qid ∈ Scheduler._order s ↔ is_Some (Scheduler._queues s !! qid)).
Proof.
  intros Hrun. pose proof (reachable_wf _ _ _ _ _ Hrun) as Hwf.
  split; [apply (wf_dom _ Hwf)|].
  split; [apply (wf_skip _ Hwf)|].
  split; [intros qid q Hq; by destruct (wf_queues _ Hwf _ _ Hq)|].
  pose proof (wf_index _ Hwf) as Hi. split; [|split].
  - intros Hne. apply lookup_lt_is_Some_2.
    destruct (Scheduler._order s); [done|simpl in *; lia].
  - intros E. rewrite E in Hi. simpl in Hi. lia.
  - intros Hall qid. split; [|apply (wf_dom _ Hwf)].
    by apply (exec_ops_present heap fuel ops Scheduler.init s logs wf_init
                queues_present_init Hall Hrun).
Qed.

Lemma reachable_state_consistent_witness :
  "Q1" ∈ Scheduler._order sample_state ∧
  Scheduler._order sample_state !! Scheduler._next_index sample_state
    = Some "Q1".
Proof.
  destruct sample_state_run as [logs Hrun].
  destruct (reachable_state_consistent sample_heap 0 sample_ops sample_state
              logs Hrun)
    as (Hord & _ & _ & Hidx & _).
  split.
  - apply Hord. vm_compute. eauto.
  - destruct Hidx as [x Hx]; [by vm_compute|].
    rewrite Hx. vm_compute in Hx. by injection Hx as <-.
Defined.


(** ** Entries of the order stay; counters count submissions *)

(** X12: from a state that satisfies the invariant of the reached
    states, a sequence of commands never reorders or removes an entry of
    the creation order: the entries present before keep their
    positions; every entry added is the id of a CREATE command of the
    sequence whose buffer could be allocated; and a queue that existed
    before still exists afterwards when the sequence has no CREATE
    command for its id. *)
Theorem order_grows_by_creates (heap : Z → bool) (fuel : nat)
    (ops : list op) (s s' : Scheduler.t) (logs : list string) :
  wf_state s →
  exec_ops heap fuel s ops = Ok (s', logs) →
  (∃ added,
     Scheduler._order s' = Scheduler._order s ++ added ∧
     ∀ qid, qid ∈ added →
       ∃ cap, CREATE qid cap ∈ ops ∧ allocatable heap cap = true) ∧
  (∀ i qid, Scheduler._order s !! i = Some qid →
            Scheduler._order s' !! i = Some qid) ∧
  (∀ k, Forall (λ o, creates k o = false) ops →
        is_Some (Scheduler._queues s !! k) →
        is_Some (Scheduler._queues s' !! k)).
Proof.
  intros Hwf Hrun.
  assert ((∃ added,
     Scheduler._order s' = Scheduler._order s ++ added ∧
     ∀ qid, qid ∈ added →
       ∃ cap, CREATE qid cap ∈ ops ∧ allocatable heap cap = true) ∧
    (∀ k, Forall (λ o, creates k o = false) ops →
        is_Some (Scheduler._queues s !! k) →
        is_Some (Scheduler._queues s' !! k))) as [Hadd Hkeep].
  2:{ split; [done|]. split; [|done].
      destruct Hadd as (added & -> & _). intros i qid Hi.
      by apply lookup_app_l_Some. }
  revert s s' logs Hwf Hrun.
  induction ops as [|o ops IH]; intros s s' logs Hwf Hrun; simpl in Hrun.
  { injection Hrun as <- _. split; [|done]. exists [].
    split; [by rewrite app_nil_r|]. intros qid H. by apply elem_of_nil in H. }
  assert (∃ s1 logs1, state_left (exec_op heap fuel s o) = Some s1 ∧
                      exec_ops heap fuel s1 ops = Ok (s', logs1))
    as (s1 & logs1 & Hop & Hops).
  { destruct (exec_op heap fuel s o) as [[s1 l1]|e s1|]; [| |done].
    - destruct (exec_ops heap fuel s1 ops) as [[s2 l2]|e2 s2|] eqn:Hops;
        simpl in Hrun; [|done..].
      injection Hrun as <- _. by exists s1, l2.
    - by exists s1, logs. }
  destruct (exec_op_advance heap fuel s s1 o Hwf Hop) as [Hord Hk].
  destruct (exec_op_inv heap fuel s o Hwf s1 Hop) as (Hwf1 & _).
  destruct (IH _ _ _ Hwf1 Hops) as [(added & Ho2 & Hadded) Hk2].
  split.
  - destruct Hord as [Hord|(qid & cap & -> & Ha & Hord & _)].
    + exists added. rewrite Ho2, Hord. split; [done|].
      intros qid Hin. destruct (Hadded qid Hin) as (cap & Hc & Ha).
      exists cap. split; [by apply list_elem_of_further|done].
    + exists (qid :: added). rewrite Ho2, Hord, <- app_assoc.
      split; [done|]. intros k Hin.
      apply elem_of_cons in Hin as [->|Hin].
      * exists cap. split; [apply list_elem_of_here|done].
      * destruct (Hadded k Hin) as (cap' & Hc & Ha').
        exists cap'. split; [by apply list_elem_of_further|done].
  - intros k Hall [q Hq]. inversion Hall as [|? ? Ho Hrest]; subst.
    destruct (Hk k Ho q Hq) as (q' & Hq' & _).
    apply Hk2; [done|by eexists].
Qed.

Lemma order_grows_by_creates_witness :
  ∃ s' logs,
    exec_ops sample_heap 0 sample_state
      [CREATE "Q2" 1; ENQ "Q2" "tea"; CREATE "Q3" (2 ^ 63)]
      = Ok (s', logs) ∧
    Scheduler._order s' !! 0 = Some "Q1" ∧
    is_Some (Scheduler._queues s' !! "Q1").
Proof.
  destruct (exec_ops sample_heap 0 sample_state
              [CREATE "Q2" 1; ENQ "Q2" "tea"; CREATE "Q3" (2 ^ 63)])
    as [[s' logs]| |] eqn:Hrun; [|by vm_compute in Hrun..].
  destruct (order_grows_by_creates sample_heap 0 _ sample_state s' logs
              wf_sample_state Hrun) as (_ & Hpos & Hkeep).
  exists s', logs. split; [reflexivity|]. split.
  - apply Hpos. vm_compute. reflexivity.
  - apply Hkeep; [repeat constructor|vm_compute; eauto].
Defined.

(** X13: as long as a queue id is not created again, its queue keeps
    its capacity, and its task counter goes up by exactly the number of
    ENQ commands addressed to it, accepted or rejected; runs and skips
    do not touch the counter. *)
Theorem counter_counts_submissions (heap : Z → bool) (fuel : nat)
    (ops : list op) (s s' : Scheduler.t) (logs : list string) (qid : string)
    (q : QueueRR.t) :
  wf_state s →
  exec_ops heap fuel s ops = Ok (s', logs) →
  Scheduler._queues s !! qid = Some q →
  Forall (λ o, creates qid o = false) ops →
  ∃ q', Scheduler._queues s' !! qid = Some q' ∧
        QueueRR.queue_id q' = QueueRR.queue_id q ∧
        QueueRR.capacity q' = QueueRR.capacity q ∧
        QueueRR._next_task_num q' =
          QueueRR._next_task_num q + length (List.filter (submits qid) ops).
Proof.
  revert s s' logs q.
  induction ops as [|o ops IH]; intros s s' logs q Hwf Hrun Hq Hall;
    simpl in Hrun.
  { injection Hrun as <- _. exists q. by rewrite Nat.add_0_r. }
  assert (∃ s1 logs1, state_left (exec_op heap fuel s o) = Some s1 ∧
                      exec_ops heap fuel s1 ops = Ok (s', logs1))
    as (s1 & logs1 & Hop & Hops).
  { destruct (exec_op heap fuel s o) as [[s1 l1]|e s1|]; [| |done].
    - destruct (exec_ops heap fuel s1 ops) as [[s2 l2]|e2 s2|] eqn:Hops;
        simpl in Hrun; [|done..].
      injection Hrun as <- _. by exists s1, l2.
    - by exists s1, logs. }
  inversion Hall as [|? ? Ho Hrest]; subst.
  destruct (exec_op_advance heap fuel s s1 o Hwf Hop) as [_ Hadv].
  destruct (Hadv qid Ho q Hq) as (q1 & Hq1 & Hid1 & Hcap1 & Hnum1).
  destruct (exec_op_inv heap fuel s o Hwf s1 Hop) as (Hwf1 & _).
  destruct (IH _ _ _ q1 Hwf1 Hops Hq1 Hrest) as (q' & Hq' & Hid & Hcap & Hnum).
  exists q'. split; [done|]. split; [congruence|]. split; [congruence|].
  rewrite Hnum, Hnum1. simpl. destruct (submits qid o); simpl; lia.
Qed.

Lemma counter_counts_submissions_witness :
  ∃ s' logs q',
    exec_ops sample_heap 0 sample_state
      [ENQ "Q1" "espresso"; ENQ "Q1" "tea"; ENQ "Q1" "tea"; RUN 1 (Some 1%Z)]
      = Ok (s', logs) ∧
    Scheduler._queues s' !! "Q1" = Some q' ∧
    QueueRR._next_task_num q' = 5.
Proof.
  destruct (exec_ops sample_heap 0 sample_state
              [ENQ "Q1" "espresso"; ENQ "Q1" "tea"; ENQ "Q1" "tea";
               RUN 1 (Some 1%Z)])
    as [[s' logs]| |] eqn:Hrun; [|by vm_compute in Hrun..].
  assert (∃ q, Scheduler._queues sample_state !! "Q1" = Some q ∧
               QueueRR._next_task_num q = 2) as (q & Hq & Hn)
    by (eexists; split; vm_compute; reflexivity).
  destruct (counter_counts_submissions sample_heap 0 _ sample_state s' logs
              "Q1" q wf_sample_state Hrun Hq) as (q' & Hq' & _ & _ & Hnum).
  { repeat constructor. }
  exists s', logs, q'. split; [reflexivity|]. split; [exact Hq'|].
  rewrite Hnum, Hn. reflexivity.
Defined.

(** ** The accepted submission *)



(** ** The queue to visit next *)

(** X15: [next_queue] returns None and changes nothing when there is
    no queue; otherwise it always returns an id of the order, also from
    a cursor that has drifted past the end, which it resets to 0 and
    answers with the first entry; with the cursor in range it returns
    the entry under it and changes nothing, and in either case the
    cursor is in range afterwards. *)
Theorem next_queue_in_range (s : Scheduler.t) :
  (Scheduler._order s = [] → Scheduler.next_queue s = (s, None)) ∧
  (Scheduler._order s ≠ [] →
     (∃ qid, (Scheduler.next_queue s).2 = Some qid ∧
             qid ∈ Scheduler._order s) ∧
     Scheduler._next_index (Scheduler.next_queue s).1
       < length (Scheduler._order s) ∧
     Scheduler._order (Scheduler.next_queue s).1 = Scheduler._order s ∧
     (Scheduler._next_index s < length (Scheduler._order s) →
        Scheduler.next_queue s =
          (s, Scheduler._order s !! Scheduler._next_index s)) ∧
     (length (Scheduler._order s) ≤ Scheduler._next_index s →
        Scheduler.next_queue s =
          (Scheduler.set_next_index s 0, head (Scheduler._order s)))).
Proof.
  unfold Scheduler.next_queue. split.
  { intros ->. done. }
  intros Hne. destruct (Scheduler._order s) as [|x o] eqn:Hord; [done|].
  rewrite <- Hord.
  assert (0 < length (Scheduler._order s)) as Hpos
    by (rewrite Hord; simpl; lia).
  destruct (Nat.leb_spec (length (Scheduler._order s))
              (Scheduler._next_index s)) as [Hge|Hlt]; simpl.
  - split.
    { exists x. rewrite Hord. simpl. split; [done|apply list_elem_of_here]. }
    split; [done|]. split; [done|]. split; [lia|].
    intros _. by rewrite Hord.
  - destruct (lookup_lt_is_Some_2 _ _ Hlt) as [qid Hqid].
    split.
    { exists qid. split; [done|]. by eapply list_elem_of_lookup_2. }
    split; [done|]. split; [done|]. split; [done|]. lia.
Qed.

(** ** The state snapshot *)

Lemma menu_items_menu : Scheduler._menu = list_to_map menu_items.
Proof. reflexivity. Qed.





(** ** Parsing a command line *)

Lemma py_split_cons (c : ascii) (s : string) :
  py_split (String c s) =
  if py_isspace c then py_split s
  else String c (split_go s).1 :: (split_go s).2.
Proof.
  unfold py_split. simpl. destruct (split_go s) as [tok toks].
  by destruct (py_isspace c).
Qed.

Lemma py_split_lstrip (s : string) : py_split (py_lstrip s) = py_split s.
Proof.
  induction s as [|c s IH]; [done|]. simpl.
  destruct (py_isspace c) eqn:E; [|done].
  by rewrite IH, py_split_cons, E.
Qed.

Lemma split_go_rstrip (s : string) : split_go (py_rstrip s) = split_go s.
Proof.
  induction s as [|c s IH]; [done|]. simpl.
  destruct (py_rstrip s) as [|c' r] eqn:E.
  - rewrite <- IH. simpl.
    destruct (py_isspace c) eqn:Ec; simpl; rewrite ?Ec; done.
  - simpl in *. by rewrite IH.
Qed.

Lemma py_split_strip (s : string) : py_split (py_strip s) = py_split s.
Proof.
  unfold py_strip. rewrite <- (py_split_lstrip s).
  unfold py_split. by rewrite split_go_rstrip.
Qed.

Lemma py_lstrip_head (s : string) :
  py_lstrip s = "" ∨
  ∃ c r, py_lstrip s = String c r ∧ py_isspace c = false.
Proof.
  induction s as [|c s IH]; [by left|]. simpl.
  destruct (py_isspace c) eqn:E; [done|]. right. by exists c, s.
Qed.

Lemma py_rstrip_head (c : ascii) (s : string) :
  py_isspace c = false → ∃ r, py_rstrip (String c s) = String c r.
Proof.
  intros E. simpl. destruct (py_rstrip s); rewrite ?E; by eexists.
Qed.

Lemma split_go_token (s : string) :
  string_forallb (λ c, negb (py_isspace c)) (split_go s).1 = true ∧
  Forall is_token (split_go s).2.
Proof.
  induction s as [|c s [IH1 IH2]]; simpl; [done|].
  destruct (split_go s) as [tok toks]. simpl in *.
  destruct (py_isspace c) eqn:E; simpl.
  - split; [done|]. destruct tok as [|a tok]; [done|].
    simpl. apply Forall_cons. by split.
  - rewrite E. simpl. by split.
Qed.

Lemma py_split_tokens (s : string) : Forall is_token (py_split s).
Proof.
  unfold py_split. destruct (split_go_token s) as [H1 H2].
  destruct (split_go s) as [tok toks]. simpl in *.
  destruct tok as [|a tok]; [done|]. simpl. apply Forall_cons. by split.
Qed.

Lemma prefix_hash (c : ascii) (r : string) :
  String.prefix "#" (String c r) = bool_decide (c = "#"%char).
Proof.
  change (String.prefix "#" (String c r))
    with (if ascii_dec "#" c then String.prefix "" r else false).
  destruct (ascii_dec "#" c) as [<-|Hne].
  - rewrite bool_decide_true by done. by destruct r.
  - by rewrite bool_decide_false by congruence.
Qed.

Lemma parse_command_split (line : string) :
  parse_command (Some line) =
    Ok (match py_split line with
        | [] => Some ("", [])
        | cmd :: args =>
            if py_startswith cmd "#" then None else Some (cmd, args)
        end).
Proof.
  unfold parse_command. rewrite <- (py_split_strip line).
  unfold py_strip.
  destruct (py_lstrip_head line) as [E|(c & r & E & Hc)]; rewrite E.
  { done. }
  destruct (py_rstrip_head c r Hc) as [r' Hr]. rewrite Hr.
  unfold py_startswith. rewrite py_split_cons, Hc, !prefix_hash.
  by case_bool_decide.
Qed.

(** X17: [parse_command] never raises, and its result depends only on
    the white-space separated tokens of the line: no token gives the
    pair of the empty command and no arguments; a first token that
    starts with '#' gives None; otherwise the first token is the command
    and the others are the arguments.  Every token is non-empty and
    free of white space, so leading, trailing and repeated white space
    never shows in the result. *)
Theorem parse_command_tokens (line : string) :
  parse_command (Some line) =
    Ok (match py_split line with
        | [] => Some ("", [])
        | cmd :: args =>
            if py_startswith cmd "#" then None else Some (cmd, args)
        end) ∧
  Forall is_token (py_split line) ∧
  parse_command None = Ok None.
Proof.
  split; [apply parse_command_split|].
  split; [apply py_split_tokens|done].
Qed.

Lemma string_app_assoc (a b c : string) :
  (a +:+ b) +:+ c = a +:+ (b +:+ c).
Proof.
  induction a as [|x a IH]; [done|].
  change ((String x a +:+ b) +:+ c) with (String x ((a +:+ b) +:+ c)).
  change (String x a +:+ (b +:+ c)) with (String x (a +:+ (b +:+ c))).
  by rewrite IH.
Qed.

Lemma string_app_nil_r (a : string) : a +:+ "" = a.
Proof.
  induction a as [|x a IH]; [done|].
  change (String x a +:+ "") with (String x (a +:+ "")). by rewrite IH.
Qed.

Lemma split_go_all_space (w : string) :
  all_space w = true → split_go w = ("", []).
Proof.
  induction w as [|c w IH]; [done|]. unfold all_space. simpl.
  intros H. apply andb_true_iff in H as [Hc Hw].
  rewrite (IH Hw), Hc. done.
Qed.

Lemma py_split_space_l (w s : string) :
  all_space w = true → py_split (w +:+ s) = py_split s.
Proof.
  induction w as [|c w IH]; [done|]. unfold all_space. simpl.
  intros H. apply andb_true_iff in H as [Hc Hw].
  change (String c w +:+ s) with (String c (w +:+ s)).
  rewrite py_split_cons, Hc. by apply IH.
Qed.

Lemma split_go_app_token (t rest : string) :
  string_forallb (λ c, negb (py_isspace c)) t = true →
  split_go (t +:+ rest) = (t +:+ (split_go rest).1, (split_go rest).2).
Proof.
  induction t as [|c t IH]; simpl.
  { intros _. change ("" +:+ rest) with rest.
    change ("" +:+ (split_go rest).1) with (split_go rest).1.
    by destruct (split_go rest). }
  intros H. apply andb_true_iff in H as [Hc Ht].
  apply negb_true_iff in Hc.
  change (String c t +:+ rest) with (String c (t +:+ rest)).
  simpl. rewrite (IH Ht), Hc. done.
Qed.

Lemma split_go_space_cons (c : ascii) (s : string) :
  py_isspace c = true → split_go (String c s) = ("", py_split s).
Proof.
  intros Hc. unfold py_split. simpl. destruct (split_go s). by rewrite Hc.
Qed.

Lemma py_split_join (toks : list string) (w : string) :
  Forall is_token toks → all_space w = true →
  py_split (py_join " " toks +:+ w) = toks.
Proof.
  intros Htoks Hw. induction Htoks as [|t toks [Hne Ht] Hrest IH].
  { simpl. change ("" +:+ w) with w. unfold py_split.
    by rewrite split_go_all_space. }
  destruct toks as [|t2 toks].
  - simpl. unfold py_split. rewrite split_go_app_token by done.
    rewrite split_go_all_space by done. simpl. rewrite string_app_nil_r.
    by destruct t.
  - change (py_join " " (t :: t2 :: toks))
      with (t +:+ " " +:+ py_join " " (t2 :: toks)).
    rewrite string_app_assoc.
    change ((" " +:+ py_join " " (t2 :: toks)) +:+ w)
      with (String " " (py_join " " (t2 :: toks) +:+ w)).
    unfold py_split at 1. rewrite split_go_app_token by done.
    rewrite split_go_space_cons by done. cbn [fst snd].
    rewrite string_app_nil_r, IH. by destruct t.
Qed.

(** X18: joining a command and its arguments with single spaces and
    parsing the line gives them back, also with any white space added in
    front and behind, provided each of them is a token (non-empty, free
    of white space) and the command does not start with '#'. *)
Theorem parse_command_round_trip (cmd : string) (args : list string)
    (w1 w2 : string) :
  Forall is_token (cmd :: args) →
  py_startswith cmd "#" = false →
  all_space w1 = true → all_space w2 = true →
  parse_command (Some (w1 +:+ py_join " " (cmd :: args) +:+ w2)) =
    Ok (Some (cmd, args)).
Proof.
  intros Htoks Hcmd Hw1 Hw2.
  rewrite parse_command_split, py_split_space_l, py_split_join by done.
  by rewrite Hcmd.
Qed.

Lemma parse_command_round_trip_witness :
  parse_command (Some ("  ENQ Q1 latte" +:+ String "010" "")) =
    Ok (Some ("ENQ", ["Q1"; "latte"])).
Proof.
  apply (parse_command_round_trip "ENQ" ["Q1"; "latte"] "  "
           (String "010" "")).
  - repeat constructor; done.
  - reflexivity.
  - reflexivity.
  - reflexivity.
Defined.

(** ** The command-line session *)



Lemma py_strip_empty (line : string) :
  py_strip line = "" ↔ py_split line = [].
Proof.
  split.
  - intros E. by rewrite <- py_split_strip, E.
  - intros E. unfold py_strip.
    destruct (py_lstrip_head line) as [->|(c & r & El & Hc)]; [done|].
    rewrite <- py_split_lstrip, El, py_split_cons, Hc in E. done.
Qed.

Lemma main_loop_blank (heap : Z → bool) (py_int : string → option Z)
    (fuel : nat) (sched : Scheduler.t) (line : string)
    (stdin out : list string) :
  py_split line = [] →
  main_loop_from heap py_int fuel sched (line :: stdin) out =
  Ended sched (out ++ ["Break time!"]).
Proof.
  intros E. apply py_strip_empty in E. simpl.
  destruct line; [done|]. by rewrite E.
Qed.

Lemma main_loop_tokens (heap : Z → bool) (py_int : string → option Z)
    (fuel : nat) (sched : Scheduler.t) (line cmd : string)
    (args stdin out : list string) :
  py_split line = cmd :: args →
  main_loop_from heap py_int fuel sched (line :: stdin) out =
  if py_startswith cmd "#" then main_loop_from heap py_int fuel sched stdin out
  else
    match cli_dispatch heap py_int fuel sched cmd args with
    | Some (sched, printed) =>
        main_loop_from heap py_int fuel sched stdin (out ++ printed)
    | None => Unfinished out
    end.
Proof.
  intros E.
  assert (py_strip line ≠ "") as Hs.
  { intros H. apply py_strip_empty in H. congruence. }
  assert (cmd ≠ "") as Hcmd.
  { pose proof (py_split_tokens line) as Ht. rewrite E in Ht.
    inversion Ht as [|? ? [Hne _]]; by subst. }
  cbn [main_loop_from]. rewrite parse_command_split, E.
  destruct line as [|c line]; [done|].
  destruct (py_strip (String c line)) as [|c' r]; [done|].
  destruct (py_startswith cmd "#"); [done|].
  by destruct cmd.
Qed.




(** X20: the session reads no further than the first line without
    tokens (an empty line, or white space only): what follows that line
    has no effect, and the session ends as it does at end of input. *)
Theorem blank_line_ends_session (heap : Z → bool)
    (py_int : string → option Z) (fuel : nat)
    (before after : list string) (blank : string) :
  py_split blank = [] →
  main_loop heap py_int fuel (before ++ blank :: after) =
  main_loop heap py_int fuel before.
Proof.
  intros Hblank. unfold main_loop.
  generalize Scheduler.init (@nil string).
  induction before as [|line before IH]; intros sched out.
  { simpl app. by rewrite main_loop_blank. }
  simpl app.
  destruct (py_split line) as [|cmd args] eqn:E.
  { by rewrite !main_loop_blank. }
  rewrite !(main_loop_tokens _ _ _ _ _ _ _ _ _ E).
  destruct (py_startswith cmd "#"); [apply IH|].
  destruct (cli_dispatch heap py_int fuel sched cmd args)
    as [[s1 printed]|]; [apply IH|done].
Qed.

Lemma blank_line_ends_session_witness :
  main_loop sample_heap (λ _, Some 2%Z) 0
    ["CREATE Q1 2"; "   "; "ENQ Q1 tea"] =
  main_loop sample_heap (λ _, Some 2%Z) 0 ["CREATE Q1 2"].
Proof.
  apply (blank_line_ends_session sample_heap (λ _, Some 2%Z) 0
           ["CREATE Q1 2"] ["ENQ Q1 tea"] "   ").
  reflexivity.
Defined.

(** X21: a line whose first token starts with '#' is a comment: taking
    it out of the input changes nothing of the session. *)
Theorem comment_line_ignored (heap : Z → bool) (py_int : string → option Z)
    (fuel : nat) (before after : list string) (comment tok : string)
    (toks : list string) :
  py_split comment = tok :: toks →
  py_startswith tok "#" = true →
  main_loop heap py_int fuel (before ++ comment :: after) =
  main_loop heap py_int fuel (before ++ after).
Proof.
  intros Hsplit Hhash. unfold main_loop.
  generalize Scheduler.init (@nil string).
  induction before as [|line before IH]; intros sched out.
  { simpl app.
    by rewrite (main_loop_tokens _ _ _ _ _ _ _ _ _ Hsplit), Hhash. }
  simpl app.
  destruct (py_split line) as [|cmd args] eqn:E.
  { by rewrite !main_loop_blank. }
  rewrite !(main_loop_tokens _ _ _ _ _ _ _ _ _ E).
  destruct (py_startswith cmd "#"); [apply IH|].
  destruct (cli_dispatch heap py_int fuel sched cmd args)
    as [[s1 printed]|]; [apply IH|done].
Qed.

Lemma comment_line_ignored_witness :
  main_loop sample_heap (λ _, Some 2%Z) 0
    ["CREATE Q1 2"; " # a note"; "ENQ Q1 tea"] =
  main_loop sample_heap (λ _, Some 2%Z) 0 ["CREATE Q1 2"; "ENQ Q1 tea"].
Proof.
  apply (comment_line_ignored sample_heap (λ _, Some 2%Z) 0 ["CREATE Q1 2"]
           ["ENQ Q1 tea"] " # a note" "#" ["a"; "note"]);
    reflexivity.
Defined.



(** ** How long a run to quiescence takes *)



(** ** A run on a quiescent engine *)

(** X24: [run] without a step count on an engine in which every entry
    of the creation order has a queue and which is quiescent (every
    queue empty, no skip flag pending), or whose creation order is
    empty, returns the unchanged state and an empty log; no turn is
    performed. *)
Theorem run_quiescent_noop (fuel : nat) (s : Scheduler.t) (quantum : Z) :
  queues_present s ∧ quiescent s ∨ Scheduler._order s = [] →
  Scheduler.run (S fuel) s quantum None = Ok (s, []) ∧
  worked_run (S fuel) s quantum None = [].
Proof.
  intros Hquiet. unfold Scheduler.run, worked_run.
  destruct (Scheduler._order s) as [|x o] eqn:Hord; [done|].
  destruct Hquiet as [[Hpres Hquiet]|?]; [|done].
  destruct (quiescent_test s Hpres Hquiet) as [He Hs].
  rewrite Hord in He. simpl. rewrite Hord. by rewrite He, Hs.
Qed.

Lemma run_quiescent_noop_witness :
  Scheduler.run 1 Scheduler.init 1 None = Ok (Scheduler.init, []) ∧
  Scheduler.run 1 fresh_state 1 None = Ok (fresh_state, []).
Proof.
  split.
  - apply (run_quiescent_noop 0 Scheduler.init 1). right. reflexivity.
  - apply (run_quiescent_noop 0 fresh_state 1). left.
    destruct fresh_state_fields as (q & Hq & Hlen & Ho & Hsk).
    split; [|split].
    + intros qid Hin. rewrite Ho in Hin.
      apply list_elem_of_singleton in Hin as ->.
      rewrite Hq, lookup_singleton_eq. by eexists.
    + intros qid q' H. rewrite Hq in H.
      by apply lookup_singleton_Some in H as [_ <-].
    + intros qid H. rewrite Hsk in H.
      by apply lookup_singleton_Some in H as [_ ?].
Defined.

(** ** The measure of a run to quiescence *)


